(** * Island hydration pipeline of [packages/astro/src/runtime/server/hydration.ts]

    A shallow embedding of [extractDirectives] and [generateHydrateScript],
    followed by the properties established about them.

    - JavaScript values are the inductive [JsValue]; objects are ordered
      lists of own properties, updated by [obj_set] the way property
      assignment does.
    - A [throw] is the left injection of a sum; the [for ... of] loops are
      recursion on the list of entries.
    - [generateHydrateScript] runs in a small monad that threads the log of
      [result.resolve] calls and stops at the first exception. *)

From Stdlib Require Import String Ascii List ZArith Bool Lia DecimalString.
Import ListNotations.
Open Scope string_scope.

(* ================================================================== *)
(** ** JavaScript values                                                *)
(* ================================================================== *)

(** The values a property can hold.  Numbers are the integral ones; functions,
    big integers and symbols used as values are left out: no path below
    distinguishes them from an object or a number. *)
#[warnings="-register-all"]
Inductive JsValue : Type :=
| VUndefined
| VNull
| VBool (b : bool)
| VNum (z : Z)
| VStr (s : string)
| VObj (fields : list (string * JsValue))
| VArr (items : list JsValue).

(** [typeof v]. *)
Definition typeof (v : JsValue) : string :=
  match v with
  | VUndefined => "undefined"
  | VNull => "object"
  | VBool _ => "boolean"
  | VNum _ => "number"
  | VStr _ => "string"
  | VObj _ => "object"
  | VArr _ => "object"
  end.

(** Truthiness, as [!v], [if (v)] and [v || w] test it. *)
Definition truthy (v : JsValue) : bool :=
  match v with
  | VUndefined => false
  | VNull => false
  | VBool b => b
  | VNum z => negb (Z.eqb z 0)
  | VStr s => negb (String.eqb s "")
  | VObj _ => true
  | VArr _ => true
  end.

(** Modelled from the spec: [isNullish] of [./util.js], which is not part of
    the sources at hand; "nullish" is [null] or [undefined]. *)
Definition isNullish (v : JsValue) : bool :=
  match v with
  | VUndefined => true
  | VNull => true
  | _ => false
  end.

(** Modelled from the spec: [isObject] of [./util.js], which is not part of
    the sources at hand; a "structured object" is a value whose [typeof] is
    ["object"] and which is not [null]. *)
Definition isObject (v : JsValue) : bool :=
  String.eqb (typeof v) "object" && negb (isNullish v).

(* ================================================================== *)
(** ** Strings                                                          *)
(* ================================================================== *)

(** [s.startsWith(p)]. *)
Definition startsWith (s p : string) : bool := String.prefix p s.

(** [s.split(sep)] for a one-character separator. *)
Fixpoint split (sep : ascii) (s : string) : list string :=
  match s with
  | EmptyString => [EmptyString]
  | String c rest =>
      if Ascii.eqb c sep then EmptyString :: split sep rest
      else match split sep rest with
           | [] => [String c EmptyString]
           | seg :: segs => String c seg :: segs
           end
  end.

Definition colon : ascii := ":"%char.

(** [parts.join(sep)]. *)
Fixpoint join (sep : string) (parts : list string) : string :=
  match parts with
  | [] => ""
  | [p] => p
  | p :: rest => p ++ sep ++ join sep rest
  end.

(** [arr.includes(x)] on an array of strings. *)
Definition includes (arr : list string) (x : string) : bool :=
  existsb (String.eqb x) arr.

(* ================================================================== *)
(** ** Objects                                                          *)
(* ================================================================== *)

Section Assoc.
Context {K V : Type} (eqb : K -> K -> bool).

Fixpoint assoc_get (k : K) (l : list (K * V)) : option V :=
  match l with
  | [] => None
  | (k', v) :: rest => if eqb k k' then Some v else assoc_get k rest
  end.

Definition assoc_has (k : K) (l : list (K * V)) : bool :=
  match assoc_get k l with Some _ => true | None => false end.

(** Writing a data property: an existing one keeps its place, a new one
    goes last. *)
Fixpoint assoc_set (k : K) (v : V) (l : list (K * V)) : list (K * V) :=
  match l with
  | [] => [(k, v)]
  | (k', v') :: rest =>
      if eqb k k' then (k', v) :: rest else (k', v') :: assoc_set k v rest
  end.

(** Filtering on the key alone. *)
Definition filter_keys (keep : K -> bool) (l : list (K * V)) : list (K * V) :=
  filter (fun kv => keep (fst kv)) l.
End Assoc.

(** Symbols are told apart by identity only. *)
Definition Symbol : Type := nat.

(** What an object inherits from. *)
Inductive Prototype : Type :=
| ObjectPrototype
| NullPrototype
| ValuePrototype (v : JsValue).

(** [Props = Record<string | number | symbol, any>]: the own string-keyed
    properties in [Object.entries] order, the own symbol-keyed ones in
    [Object.getOwnPropertySymbols] order, and the prototype. *)
Record Props : Type := mkProps {
  entries : list (string * JsValue);
  symbols : list (Symbol * JsValue);
  proto : Prototype
}.

(** The object literal [{}]. *)
Definition empty_object : Props := mkProps [] [] ObjectPrototype.

Definition with_entries (o : Props) (es : list (string * JsValue)) : Props :=
  mkProps es (symbols o) (proto o).

Definition with_symbols (o : Props) (ss : list (Symbol * JsValue)) : Props :=
  mkProps (entries o) ss (proto o).

Definition with_proto (o : Props) (p : Prototype) : Props :=
  mkProps (entries o) (symbols o) p.

Definition PROTO : string := "__proto__".

(** Whether an assignment to [__proto__] that finds no own property reaches
    the accessor of [Object.prototype] through the prototype chain. *)
Definition proto_accessor_reachable (p : Prototype) : bool :=
  match p with
  | ObjectPrototype => true
  | NullPrototype => false
  | ValuePrototype (VObj fields) => negb (assoc_has String.eqb PROTO fields)
  | ValuePrototype _ => true
  end.

(** The [__proto__] setter: an object or [null] becomes the prototype, any
    other value is ignored. *)
Definition set_prototype_of (v : JsValue) (o : Props) : Props :=
  match v with
  | VObj _ | VArr _ => with_proto o (ValuePrototype v)
  | VNull => with_proto o NullPrototype
  | _ => o
  end.

(** [o[k] = v] for a string key [k].  A new key goes last; JavaScript lists
    array-index keys (["0"], ["1"], ...) before the others, a difference in
    the order of the entries only, which is stated below only where no index
    key is written. *)
Definition obj_set (k : string) (v : JsValue) (o : Props) : Props :=
  if assoc_has String.eqb k (entries o) then
    with_entries o (assoc_set String.eqb k v (entries o))
  else if String.eqb k PROTO && proto_accessor_reachable (proto o) then
    set_prototype_of v o
  else
    with_entries o (assoc_set String.eqb k v (entries o)).

(** [o[sym] = v] for a symbol key. *)
Definition sym_set (sym : Symbol) (v : JsValue) (o : Props) : Props :=
  with_symbols o (assoc_set Nat.eqb sym v (symbols o)).

(** [o[sym]] for an own symbol key. *)
Definition sym_get (o : Props) (sym : Symbol) : JsValue :=
  match assoc_get Nat.eqb sym (symbols o) with
  | Some v => v
  | None => VUndefined
  end.

(** [Object.entries(o)] and [Object.getOwnPropertySymbols(o)]. *)
Definition Object_entries (o : Props) : list (string * JsValue) := entries o.
Definition Object_getOwnPropertySymbols (o : Props) : list Symbol :=
  map fst (symbols o).

(** A bag as JavaScript can build it: no key occurs twice. *)
Definition well_formed (o : Props) : Prop :=
  NoDup (map fst (entries o)) /\ NoDup (map fst (symbols o)).

(** [Object.keys(v)] of a value that passed [isObject]. *)
Definition Object_keys (v : JsValue) : list string :=
  match v with
  | VObj fields => map fst fields
  | VArr items =>
      map (fun i => NilZero.string_of_uint (Nat.to_uint i)) (seq 0 (length items))
  | _ => []
  end.

(** [v.name] for a property name that is not an array index. *)
Definition get_field (v : JsValue) (name : string) : JsValue :=
  match v with
  | VObj fields =>
      match assoc_get String.eqb name fields with
      | Some w => w
      | None => VUndefined
      end
  | _ => VUndefined
  end.

(* ================================================================== *)
(** ** Exceptions                                                       *)
(* ================================================================== *)

(** The message of a plain [Error], kept as the throw site and the values
    interpolated into its template. *)
Inductive ErrorMessage : Type :=
| InvalidParamsValue (value : JsValue) (type : string)
| InvalidParamsShape (value : JsValue)
| DirectiveNotString (type : string)
| InvalidHydrationDirective (key : string) (hydrationMethods : string).

(** The entries of [AstroErrorData] that are thrown here;
    [NoMatchingImport] carries the argument of its [message] function. *)
Inductive AstroErrorData : Type :=
| MissingMediaQueryDirective
| NoMatchingImport (displayName : string).

Inductive Exception : Type :=
| Error_ (message : ErrorMessage)
| AstroError (data : AstroErrorData).

Definition dquote : string := String (ascii_of_nat 34) EmptyString.

(** The text of a message, given [JSON.stringify]. *)
Definition message_text (JSON_stringify : JsValue -> string)
    (m : ErrorMessage) : string :=
  match m with
  | InvalidParamsValue v ty =>
      "Error: invalid `params` directive value " ++ JSON_stringify v
      ++ ". Expected an object of the form `{ directive: string, value: string }`, but got "
      ++ ty ++ "."
  | InvalidParamsShape v =>
      "Error: invalid `params` directive value. Expected an object of the form `{ directive: string, value: string }`, but got "
      ++ JSON_stringify v ++ "."
  | DirectiveNotString ty =>
      "Error: expected `directive` to be a string, but got " ++ ty ++ "."
  | InvalidHydrationDirective key methods =>
      "Error: invalid hydration directive " ++ dquote ++ key ++ dquote
      ++ ". Supported hydration methods: " ++ methods
  end.

(** The failure classes of the specification, read off the exceptions. *)
Definition InvalidDirectiveValue (e : Exception) : Prop :=
  match e with
  | Error_ (InvalidParamsValue _ _) => True
  | Error_ (InvalidParamsShape _) => True
  | Error_ (DirectiveNotString _) => True
  | _ => False
  end.

Definition UnknownDirective (e : Exception) : Prop :=
  match e with
  | Error_ (InvalidHydrationDirective _ _) => True
  | _ => False
  end.

Definition MissingMediaQuery (e : Exception) : Prop :=
  e = AstroError MissingMediaQueryDirective.

Definition MissingComponentExport (e : Exception) : Prop :=
  match e with
  | AstroError (NoMatchingImport _) => True
  | _ => False
  end.

(* ================================================================== *)
(** ** [extractDirectives]                                              *)
(* ================================================================== *)

Module ComponentExport.
Record t : Type := mk { value : JsValue }.
End ComponentExport.

Module HydrationMetadata.
Record t : Type := mk {
  directive : string;
  value : JsValue;
  componentUrl : JsValue;
  componentExport : ComponentExport.t
}.
End HydrationMetadata.

Record ExtractedProps : Type := mkExtracted {
  isPage : bool;
  hydration : option HydrationMetadata.t;
  props : Props;
  propsWithoutTransitionAttributes : Props
}.

Definition transitionDirectivesToCopyOnIsland : list string :=
  ["data-astro-transition-scope"; "data-astro-transition-persist"].

(** [SSRResult['clientDirectives']], a [Map<string, string>] from directive
    name to entry point, in insertion order. *)
Definition ClientDirectives : Type := list (string * string).

Definition Map_has (m : ClientDirectives) (k : string) : bool :=
  assoc_has String.eqb k m.

Definition Map_keys (m : ClientDirectives) : list string := map fst m.

(** [Array.from(clientDirectives.keys()).map((d) => `client:${d}`).join(', ')]. *)
Definition hydrationMethods (clientDirectives : ClientDirectives) : string :=
  join ", " (map (fun d => "client:" ++ d) (Map_keys clientDirectives)).

(** The record the first [client:] key creates. *)
Definition initial_hydration : HydrationMetadata.t :=
  HydrationMetadata.mk "" (VStr "") (VStr "") (ComponentExport.mk (VStr "")).

(** The [default] case of the switch, entered with the current [key] and
    [value].  [key.split(':')[1]] is [undefined] on a key without a colon;
    [clientDirectives.has(undefined)] is then false and the first [throw] is
    taken. *)
Definition default_case (clientDirectives : ClientDirectives)
    (h : HydrationMetadata.t) (key : string) (value : JsValue)
    : Exception + HydrationMetadata.t :=
  match nth_error (split colon key) 1 with
  | None =>
      inl (Error_ (InvalidHydrationDirective key (hydrationMethods clientDirectives)))
  | Some d =>
      let h' := HydrationMetadata.mk d value (HydrationMetadata.componentUrl h)
                  (HydrationMetadata.componentExport h) in
      if negb (Map_has clientDirectives (HydrationMetadata.directive h')) then
        inl (Error_ (InvalidHydrationDirective key (hydrationMethods clientDirectives)))
      else if String.eqb (HydrationMetadata.directive h') "media"
              && negb (String.eqb (typeof (HydrationMetadata.value h')) "string") then
        inl (AstroError MissingMediaQueryDirective)
      else inr h'
  end.

(** The body of [case 'client:params'] up to the fall-through: [inr None] is
    the [break] on a nullish value, [inr (Some (key, value))] the reassigned
    [key] and [value] with which control falls into the [default] case. *)
Definition params_case (value : JsValue)
    : Exception + option (string * JsValue) :=
  let maybeDirectiveOptions := value in
  if isNullish maybeDirectiveOptions then inr None
  else if negb (isObject maybeDirectiveOptions) then
    inl (Error_ (InvalidParamsValue maybeDirectiveOptions (typeof maybeDirectiveOptions)))
  else if existsb
            (fun _key => negb (String.eqb _key "directive")
                         && negb (String.eqb _key "value"))
            (Object_keys maybeDirectiveOptions) then
    inl (Error_ (InvalidParamsShape maybeDirectiveOptions))
  else
    match get_field maybeDirectiveOptions "directive" with
    | VStr d => inr (Some ("client:" ++ d, get_field maybeDirectiveOptions "value"))
    | other => inl (Error_ (DirectiveNotString (typeof other)))
    end.

(** [switch (key) { ... }] on a key that starts with [client:], acting on
    the hydration record. *)
Definition client_switch (clientDirectives : ClientDirectives)
    (h : HydrationMetadata.t) (key : string) (value : JsValue)
    : Exception + HydrationMetadata.t :=
  if String.eqb key "client:component-path" then
    inr (HydrationMetadata.mk (HydrationMetadata.directive h)
           (HydrationMetadata.value h) value (HydrationMetadata.componentExport h))
  else if String.eqb key "client:component-export" then
    inr (HydrationMetadata.mk (HydrationMetadata.directive h)
           (HydrationMetadata.value h) (HydrationMetadata.componentUrl h)
           (ComponentExport.mk value))
  else if String.eqb key "client:component-hydration" then inr h
  else if String.eqb key "client:display-name" then inr h
  else if String.eqb key "client:params" then
    match params_case value with
    | inl e => inl e
    | inr None => inr h
    | inr (Some (key', value')) => default_case clientDirectives h key' value'
    end
  else default_case clientDirectives h key value.

(** One turn of [for (let [key, value] of Object.entries(inputProps))]. *)
Definition iteration (clientDirectives : ClientDirectives)
    (extracted : ExtractedProps) (key : string) (value : JsValue)
    : Exception + ExtractedProps :=
  let extracted :=
    if startsWith key "server:" then
      if String.eqb key "server:root" then
        mkExtracted true (hydration extracted) (props extracted)
          (propsWithoutTransitionAttributes extracted)
      else extracted
    else extracted in
  if startsWith key "client:" then
    let h := match hydration extracted with
             | Some h => h
             | None => initial_hydration
             end in
    match client_switch clientDirectives h key value with
    | inl e => inl e
    | inr h' =>
        inr (mkExtracted (isPage extracted) (Some h') (props extracted)
               (propsWithoutTransitionAttributes extracted))
    end
  else
    inr (mkExtracted (isPage extracted) (hydration extracted)
           (obj_set key value (props extracted))
           (if negb (includes transitionDirectivesToCopyOnIsland key) then
              obj_set key value (propsWithoutTransitionAttributes extracted)
            else propsWithoutTransitionAttributes extracted)).

(** The first loop, over the entries that are left. *)
Fixpoint entries_loop (clientDirectives : ClientDirectives)
    (es : list (string * JsValue)) (extracted : ExtractedProps)
    : Exception + ExtractedProps :=
  match es with
  | [] => inr extracted
  | (key, value) :: rest =>
      match iteration clientDirectives extracted key value with
      | inl e => inl e
      | inr extracted' => entries_loop clientDirectives rest extracted'
      end
  end.

(** One turn of [for (const sym of Object.getOwnPropertySymbols(inputProps))]. *)
Definition symbol_iteration (inputProps : Props) (extracted : ExtractedProps)
    (sym : Symbol) : ExtractedProps :=
  mkExtracted (isPage extracted) (hydration extracted)
    (sym_set sym (sym_get inputProps sym) (props extracted))
    (sym_set sym (sym_get inputProps sym)
       (propsWithoutTransitionAttributes extracted)).

Definition initial_extracted : ExtractedProps :=
  mkExtracted false None empty_object empty_object.

Definition extractDirectives (inputProps : Props)
    (clientDirectives : ClientDirectives) : Exception + ExtractedProps :=
  match entries_loop clientDirectives (Object_entries inputProps)
          initial_extracted with
  | inl e => inl e
  | inr extracted =>
      inr (fold_left (symbol_iteration inputProps)
             (Object_getOwnPropertySymbols inputProps) extracted)
  end.

(* ================================================================== *)
(** ** [generateHydrateScript]                                          *)
(* ================================================================== *)

(** [Required<AstroComponentMetadata>], with the fields read here. *)
Module AstroComponentMetadata.
Record t : Type := mk {
  displayName : string;
  hydrate : string;
  hydrateArgs : JsValue;
  componentUrl : string;
  componentExport : ComponentExport.t
}.
End AstroComponentMetadata.

(** What the function imports or takes from the language: [escapeHTML],
    [serializeProps], [decodeURI] (which throws on a malformed sequence) and
    [JSON.stringify]. *)
Record Imports : Type := mkImports {
  escapeHTML : string -> string;
  serializeProps : Props -> AstroComponentMetadata.t -> Exception + string;
  decodeURI : string -> Exception + string;
  JSON_stringify : JsValue -> string
}.

(** [SSRResult]: the one operation used, [resolve], answers with a URL or
    rejects. *)
Module SSRResult.
Record t : Type := mk { resolve : string -> Exception + string }.
End SSRResult.

Module SSRLoadedRenderer.
Record t : Type := mk { clientEntrypoint : option string }.
End SSRLoadedRenderer.

Module HydrateScriptOptions.
Record t : Type := mk {
  renderer : SSRLoadedRenderer.t;
  result : SSRResult.t;
  astroId : string;
  props : Props;
  attrs : option (list (string * string))
}.
End HydrateScriptOptions.

Module SSRElement.
Record t : Type := mk { children : string; props : Props }.
End SSRElement.

(** [o[k]] for a string key that is not an array index: an own property, or
    one inherited from the prototype. *)
Definition obj_get (o : Props) (k : string) : JsValue :=
  match assoc_get String.eqb k (entries o) with
  | Some v => v
  | None =>
      match proto o with
      | ValuePrototype p => get_field p k
      | _ => VUndefined
      end
  end.

(** Whether [o] has an own property [k]. *)
Definition has_own (o : Props) (k : string) : bool :=
  assoc_has String.eqb k (entries o).

(** Computations that log the paths passed to [result.resolve] and stop at
    the first exception. *)
Definition Async (A : Type) : Type :=
  list string -> (Exception + A) * list string.

Definition ret {A : Type} (a : A) : Async A := fun log => (inr a, log).

Definition throw {A : Type} (e : Exception) : Async A := fun log => (inl e, log).

Definition bind {A B : Type} (m : Async A) (k : A -> Async B) : Async B :=
  fun log =>
    match m log with
    | (inl e, log') => (inl e, log')
    | (inr a, log') => k a log'
    end.

Definition lift {A : Type} (r : Exception + A) : Async A :=
  fun log => (r, log).

(** [await result.resolve(path)]. *)
Definition await_resolve (result : SSRResult.t) (path : string) : Async string :=
  fun log => (SSRResult.resolve result path, (log ++ [path])%list).

Notation "x <- m ;; k" := (bind m (fun x => k))
  (at level 61, m at next level, right associativity).

Definition set_island_prop (island : SSRElement.t) (k : string) (v : JsValue)
    : SSRElement.t :=
  SSRElement.mk (SSRElement.children island)
    (obj_set k v (SSRElement.props island)).

Definition truthy_string (s : option string) : bool :=
  match s with
  | Some s => negb (String.eqb s "")
  | None => false
  end.

Definition generateHydrateScript (imports : Imports)
    (scriptOptions : HydrateScriptOptions.t)
    (metadata : AstroComponentMetadata.t) : Async SSRElement.t :=
  let renderer := HydrateScriptOptions.renderer scriptOptions in
  let result := HydrateScriptOptions.result scriptOptions in
  let astroId := HydrateScriptOptions.astroId scriptOptions in
  let props := HydrateScriptOptions.props scriptOptions in
  let attrs := HydrateScriptOptions.attrs scriptOptions in
  let hydrate := AstroComponentMetadata.hydrate metadata in
  let componentUrl := AstroComponentMetadata.componentUrl metadata in
  let componentExport := AstroComponentMetadata.componentExport metadata in
  if negb (truthy (ComponentExport.value componentExport)) then
    throw (AstroError (NoMatchingImport (AstroComponentMetadata.displayName metadata)))
  else
    let island := SSRElement.mk "" (mkProps [("uid", VStr astroId)] [] ObjectPrototype) in
    let island :=
      match attrs with
      | Some attrs =>
          fold_left
            (fun island kv =>
               set_island_prop island (fst kv) (VStr (escapeHTML imports (snd kv))))
            attrs island
      | None => island
      end in
    decoded <- lift (decodeURI imports componentUrl) ;;
    url <- await_resolve result decoded ;;
    let island := set_island_prop island "component-url" (VStr url) in
    island <-
      match SSRLoadedRenderer.clientEntrypoint renderer with
      | Some entry =>
          if negb (String.eqb entry "") then
            let island :=
              set_island_prop island "component-export"
                (ComponentExport.value componentExport) in
            decoded <- lift (decodeURI imports entry) ;;
            url <- await_resolve result decoded ;;
            let island := set_island_prop island "renderer-url" (VStr url) in
            serialized <- lift (serializeProps imports props metadata) ;;
            ret (set_island_prop island "props"
                   (VStr (escapeHTML imports serialized)))
          else ret island
      | None => ret island
      end ;;
    let island := set_island_prop island "ssr" (VStr "") in
    let island := set_island_prop island "client" (VStr hydrate) in
    beforeHydrationUrl <- await_resolve result "astro:scripts/before-hydration.js" ;;
    let island :=
      if negb (Nat.eqb (String.length beforeHydrationUrl) 0) then
        set_island_prop island "before-hydration-url" (VStr beforeHydrationUrl)
      else island in
    let island :=
      set_island_prop island "opts"
        (VStr (escapeHTML imports
           (JSON_stringify imports
              (VObj [("name", VStr (AstroComponentMetadata.displayName metadata));
                     ("value",
                      if truthy (AstroComponentMetadata.hydrateArgs metadata)
                      then AstroComponentMetadata.hydrateArgs metadata
                      else VStr "")])))) in
    ret (fold_left
           (fun island name =>
              if truthy (obj_get props name) then
                set_island_prop island name (obj_get props name)
              else island)
           transitionDirectivesToCopyOnIsland island).

(* ================================================================== *)
(** ** Notions used in the statements                                   *)
(* ================================================================== *)

(** A key that is not one of the transition keys. *)
Definition nontransition (k : string) : bool :=
  negb (includes transitionDirectivesToCopyOnIsland k).

(** An object without its transition-keyed entries. *)
Definition without_transition (o : Props) : Props :=
  mkProps (filter_keys nontransition (entries o)) (symbols o) (proto o).

(** The separator [join] puts on the side of a part where [l] lies. *)
Definition separator_beside {A : Type} (sep : string) (l : list A) : string :=
  match l with
  | [] => ""
  | _ :: _ => sep
  end.

(** An entry whose key does not start with [client:]. *)
Definition not_client (kv : string * JsValue) : bool :=
  negb (startsWith (fst kv) "client:").

(** The [client:] keys the switch has a case of its own for. *)
Definition reserved_client_keys : list string :=
  ["client:component-path"; "client:component-export";
   "client:component-hydration"; "client:display-name"; "client:params"].

(** The key and value with which an entry enters the [default] case, if it
    does: a [client:] key without a case of its own, or a [client:params]
    whose value passed the checks. *)
Definition dispatched (key : string) (value : JsValue)
    : option (string * JsValue) :=
  if startsWith key "client:" then
    if String.eqb key "client:params" then
      match params_case value with
      | inr (Some kv) => Some kv
      | _ => None
      end
    else if includes reserved_client_keys key then None
    else Some (key, value)
  else None.

(** The directive name the [default] case derives from a key. *)
Definition directive_name (key : string) : option string :=
  nth_error (split colon key) 1.

(** The name in the hydration record, [""] while there is no record. *)
Definition current_name (extracted : ExtractedProps) : string :=
  match hydration extracted with
  | Some h => HydrationMetadata.directive h
  | None => ""
  end.

(** The hydration record a turn on a [client:] key works on: the one there
    is, or the one it creates. *)
Definition record_of (extracted : ExtractedProps) : HydrationMetadata.t :=
  match hydration extracted with
  | Some h => h
  | None => initial_hydration
  end.

(** The shape [client:params] accepts, in the words of the specification:
    an object whose keys are only [directive], a string [d], and optionally
    [value], read as [w]. *)
Definition ParamsShape (v : JsValue) (d : string) (w : JsValue) : Prop :=
  exists fields,
    v = VObj fields
    /\ Forall (fun k => k = "directive" \/ k = "value") (map fst fields)
    /\ assoc_get String.eqb "directive" fields = Some (VStr d)
    /\ w = match assoc_get String.eqb "value" fields with
           | Some w => w
           | None => VUndefined
           end.

(** Whether the extra attributes name [k]. *)
Definition attrs_has (attrs : option (list (string * string))) (k : string)
    : bool :=
  match attrs with
  | Some l => existsb (fun kv => String.eqb (fst kv) k) l
  | None => false
  end.

(** The attribute [k] of an island, if it has one. *)
Definition island_get (island : SSRElement.t) (k : string) : option JsValue :=
  assoc_get String.eqb k (entries (SSRElement.props island)).

(** The island of [generateHydrateScript] once the extra attributes are
    attached. *)
Definition island_with_attrs (imports : Imports) (astroId : string)
    (attrs : option (list (string * string))) : SSRElement.t :=
  let island :=
    SSRElement.mk "" (mkProps [("uid", VStr astroId)] [] ObjectPrototype) in
  match attrs with
  | Some attrs =>
      fold_left
        (fun island kv =>
           set_island_prop island (fst kv) (VStr (escapeHTML imports (snd kv))))
        attrs island
  | None => island
  end.

(** What the branch for a renderer with a client entry point adds. *)
Definition island_with_renderer (imports : Imports)
    (metadata : AstroComponentMetadata.t) (url serialized : string)
    (island : SSRElement.t) : SSRElement.t :=
  set_island_prop
    (set_island_prop
       (set_island_prop island "component-export"
          (ComponentExport.value
             (AstroComponentMetadata.componentExport metadata)))
       "renderer-url" (VStr url))
    "props" (VStr (escapeHTML imports serialized)).

(** The [opts] attribute. *)
Definition island_opts (imports : Imports) (metadata : AstroComponentMetadata.t)
    : JsValue :=
  VStr (escapeHTML imports
          (JSON_stringify imports
             (VObj [("name", VStr (AstroComponentMetadata.displayName metadata));
                    ("value",
                     if truthy (AstroComponentMetadata.hydrateArgs metadata)
                     then AstroComponentMetadata.hydrateArgs metadata
                     else VStr "")]))).

(** The last loop of [generateHydrateScript]. *)
Definition island_with_transitions (props : Props) (island : SSRElement.t)
    : SSRElement.t :=
  fold_left
    (fun island name =>
       if truthy (obj_get props name) then
         set_island_prop island name (obj_get props name)
       else island)
    transitionDirectivesToCopyOnIsland island.

(** What [generateHydrateScript] does from the [ssr] attribute on, once the
    before-hydration URL is resolved. *)
Definition island_finish (imports : Imports) (props : Props)
    (metadata : AstroComponentMetadata.t) (beforeHydrationUrl : string)
    (island : SSRElement.t) : SSRElement.t :=
  let island := set_island_prop island "ssr" (VStr "") in
  let island :=
    set_island_prop island "client"
      (VStr (AstroComponentMetadata.hydrate metadata)) in
  let island :=
    if negb (Nat.eqb (String.length beforeHydrationUrl) 0) then
      set_island_prop island "before-hydration-url" (VStr beforeHydrationUrl)
    else island in
  let island := set_island_prop island "opts" (island_opts imports metadata) in
  island_with_transitions props island.

(** The names [generateHydrateScript] itself gives to attributes. *)
Definition island_vocabulary : list string :=
  ["component-url"; "component-export"; "renderer-url"; "props"; "ssr";
   "client"; "before-hydration-url"; "opts";
   "data-astro-transition-scope"; "data-astro-transition-persist"].

(** The path of the bootstrap script. *)
Definition before_hydration_path : string := "astro:scripts/before-hydration.js".

(* ================================================================== *)
(** ** Sample inputs                                                    *)
(* ================================================================== *)

(** A bag with string-keyed entries only. *)
Definition bag (es : list (string * JsValue)) : Props :=
  mkProps es [] ObjectPrototype.

Definition registry : ClientDirectives :=
  [("load", "astro/client/load.js"); ("idle", "astro/client/idle.js")].

(** A registry with the [media] directive. *)
Definition media_registry : ClientDirectives :=
  [("load", "astro/client/load.js"); ("media", "astro/client/media.js")].

(** A bag without [client:] and [server:] keys. *)
Definition plain_bag : Props :=
  mkProps [("title", VStr "Hello"); ("count", VNum 3)] [(0, VBool true)]
    ObjectPrototype.

(** A bag with a directive, a transition key, [server:root] and a symbol. *)
Definition island_bag : Props :=
  mkProps
    [("title", VStr "Hello");
     ("data-astro-transition-scope", VStr "astro-abc");
     ("client:load", VStr "");
     ("server:root", VBool true)]
    [(4, VStr "slot")]
    ObjectPrototype.

(** What [island_bag] is extracted into. *)
Definition island_extracted : ExtractedProps :=
  match extractDirectives island_bag registry with
  | inr ex => ex
  | inl _ => initial_extracted
  end.

(** A [client:params] value of the accepted shape. *)
Definition idle_params : JsValue :=
  VObj [("directive", VStr "idle"); ("value", VNum 2)].

(** A bag with an own [__proto__] key. *)
Definition proto_bag : Props :=
  mkProps [("title", VStr "t"); ("__proto__", VObj [("polluted", VBool true)])]
    [] ObjectPrototype.

(** A bag with two directives and the component keys. *)
Definition component_bag : Props :=
  bag [("client:idle", VStr "");
       ("client:component-path", VStr "/src/Counter.jsx");
       ("client:load", VStr "");
       ("client:component-export", VStr "default");
       ("client:component-hydration", VStr "");
       ("count", VNum 1)].

(** The hydration record of [component_bag]. *)
Definition component_record : HydrationMetadata.t :=
  HydrationMetadata.mk "load" (VStr "") (VStr "/src/Counter.jsx")
    (ComponentExport.mk (VStr "default")).

Definition sample_imports : Imports :=
  mkImports (fun s => s) (fun _ _ => inr "{}") (fun s => inr s) (fun _ => "{}").

Definition sample_result : SSRResult.t :=
  SSRResult.mk (fun path => inr ("/resolved/" ++ path)).

Definition sample_metadata (exportName : string) : AstroComponentMetadata.t :=
  AstroComponentMetadata.mk "Counter" "load" VUndefined "/src/Counter.jsx"
    (ComponentExport.mk (VStr exportName)).

Definition sample_options (attrs : option (list (string * string)))
    : HydrateScriptOptions.t :=
  HydrateScriptOptions.mk (SSRLoadedRenderer.mk None) sample_result "uid-1"
    (bag [("count", VNum 1)]) attrs.

(** Options with a renderer that has a client entry point, props with a
    transition key, and extra attributes. *)
Definition client_options : HydrateScriptOptions.t :=
  HydrateScriptOptions.mk
    (SSRLoadedRenderer.mk (Some "@astrojs/react/client.js"))
    sample_result "uid-2"
    (bag [("count", VNum 1); ("data-astro-transition-scope", VStr "astro-abc")])
    (Some [("data-render-id", "r1"); ("uid", "custom")]).

(** A result context whose bootstrap script resolves to nothing. *)
Definition quiet_result : SSRResult.t :=
  SSRResult.mk
    (fun path =>
       if String.eqb path before_hydration_path then inr ""
       else inr ("/resolved/" ++ path)).

(** A result context that rejects every path; the exception thrown stands
    for whatever the rejection carries. *)
Definition failing_result : SSRResult.t :=
  SSRResult.mk (fun path => inl (Error_ (DirectiveNotString path))).

(** Options for a server-only renderer whose bootstrap script resolves to
    nothing. *)
Definition quiet_options : HydrateScriptOptions.t :=
  HydrateScriptOptions.mk (SSRLoadedRenderer.mk None) quiet_result "uid-3"
    (bag []) None.

(** Options whose resolutions are all rejected. *)
Definition failing_options : HydrateScriptOptions.t :=
  HydrateScriptOptions.mk (SSRLoadedRenderer.mk None) failing_result "uid-4"
    (bag []) None.

(* ================================================================== *)
(** ** Association lists                                                *)
(* ================================================================== *)

Section AssocFacts.
Context {K V : Type} (eqb : K -> K -> bool).
Hypothesis eqb_eq : forall a b, eqb a b = true <-> a = b.

Lemma eqb_refl' : forall a, eqb a a = true.
Proof. intro a. apply eqb_eq. reflexivity. Qed.

Lemma eqb_neq' : forall a b, a <> b -> eqb a b = false.
Proof.
  intros a b Hab. destruct (eqb a b) eqn:E; [|reflexivity].
  apply eqb_eq in E. contradiction.
Qed.

Lemma assoc_get_set_same (k : K) (v : V) (l : list (K * V)) :
  assoc_get eqb k (assoc_set eqb k v l) = Some v.
Proof.
  induction l as [|[k' v'] l IH]; simpl.
  - now rewrite eqb_refl'.
  - destruct (eqb k k') eqn:E; simpl; rewrite E; [reflexivity|exact IH].
Qed.

Lemma assoc_get_set_other (k k' : K) (v : V) (l : list (K * V)) :
  k' <> k ->
  assoc_get eqb k' (assoc_set eqb k v l) = assoc_get eqb k' l.
Proof.
  intros Hne. induction l as [|[k0 v0] l IH]; simpl.
  - now rewrite (eqb_neq' k' k).
  - destruct (eqb k k0) eqn:E; simpl.
    + apply eqb_eq in E. subst k0. now rewrite (eqb_neq' k' k).
    + destruct (eqb k' k0); [reflexivity|exact IH].
Qed.

Lemma assoc_get_Some_In (k : K) (v : V) (l : list (K * V)) :
  assoc_get eqb k l = Some v -> In (k, v) l.
Proof.
  induction l as [|[k0 v0] l IH]; simpl; [discriminate|].
  destruct (eqb k k0) eqn:E.
  - intros [= ->]. apply eqb_eq in E. subst. now left.
  - intros H. right. now apply IH.
Qed.

Lemma assoc_get_None_notin (k : K) (l : list (K * V)) :
  assoc_get eqb k l = None <-> ~ In k (map fst l).
Proof.
  induction l as [|[k0 v0] l IH]; simpl.
  - split; [intros _ []|reflexivity].
  - destruct (eqb k k0) eqn:E.
    + apply eqb_eq in E. subst. split; [discriminate|].
      intros H. exfalso. apply H. now left.
    + rewrite IH. split.
      * intros H [Heq|Hin]; [|now apply H].
        subst. rewrite eqb_refl' in E. discriminate.
      * intros H Hin. apply H. now right.
Qed.

Lemma assoc_get_In (k : K) (v : V) (l : list (K * V)) :
  NoDup (map fst l) -> In (k, v) l -> assoc_get eqb k l = Some v.
Proof.
  induction l as [|[k0 v0] l IH]; simpl; [intros _ []|].
  intros Hnd [Heq|Hin].
  - injection Heq as -> ->. now rewrite eqb_refl'.
  - inversion Hnd as [|? ? Hnotin Hnd']; subst.
    destruct (eqb k k0) eqn:E.
    + apply eqb_eq in E. subst. exfalso. apply Hnotin.
      change k0 with (fst (k0, v)). now apply in_map.
    + now apply IH.
Qed.

Lemma assoc_has_In (k : K) (l : list (K * V)) :
  assoc_has eqb k l = true <-> In k (map fst l).
Proof.
  unfold assoc_has. destruct (assoc_get eqb k l) eqn:E.
  - split; [intros _|reflexivity].
    apply assoc_get_Some_In in E. change k with (fst (k, v)). now apply in_map.
  - split; [discriminate|]. intros Hin.
    apply assoc_get_None_notin in E. contradiction.
Qed.

Lemma assoc_has_set (k k' : K) (v : V) (l : list (K * V)) :
  assoc_has eqb k' (assoc_set eqb k v l) = eqb k' k || assoc_has eqb k' l.
Proof.
  unfold assoc_has. destruct (eqb k' k) eqn:E.
  - apply eqb_eq in E. subst. now rewrite assoc_get_set_same.
  - rewrite assoc_get_set_other; [reflexivity|].
    intros ->. rewrite eqb_refl' in E. discriminate.
Qed.

Variable keep : K -> bool.

Lemma assoc_get_filter_keys (k : K) (l : list (K * V)) :
  assoc_get eqb k (filter_keys keep l) = if keep k then assoc_get eqb k l else None.
Proof.
  induction l as [|[k0 v0] l IH]; simpl.
  - now destruct (keep k).
  - destruct (keep k0) eqn:Ek0; simpl.
    + destruct (eqb k k0) eqn:E.
      * apply eqb_eq in E. subst. now rewrite Ek0.
      * exact IH.
    + destruct (eqb k k0) eqn:E.
      * apply eqb_eq in E. subst. rewrite Ek0. rewrite IH, Ek0. reflexivity.
      * exact IH.
Qed.

Lemma filter_keys_set_keep (k : K) (v : V) (l : list (K * V)) :
  keep k = true ->
  filter_keys keep (assoc_set eqb k v l) = assoc_set eqb k v (filter_keys keep l).
Proof.
  intros Hk. induction l as [|[k0 v0] l IH]; simpl.
  - now rewrite Hk.
  - destruct (eqb k k0) eqn:E; simpl.
    + apply eqb_eq in E. subst. rewrite Hk. simpl. now rewrite eqb_refl'.
    + destruct (keep k0); simpl; [rewrite E|]; now rewrite <- IH.
Qed.

Lemma filter_keys_set_drop (k : K) (v : V) (l : list (K * V)) :
  keep k = false ->
  filter_keys keep (assoc_set eqb k v l) = filter_keys keep l.
Proof.
  intros Hk. induction l as [|[k0 v0] l IH]; simpl.
  - now rewrite Hk.
  - destruct (eqb k k0) eqn:E; simpl.
    + apply eqb_eq in E. subst. now rewrite Hk.
    + destruct (keep k0); simpl; now rewrite <- IH.
Qed.
End AssocFacts.

(* ================================================================== *)
(** ** Property assignment                                              *)
(* ================================================================== *)

Lemma string_eqb_eq (a b : string) : String.eqb a b = true <-> a = b.
Proof. apply String.eqb_eq. Qed.

Lemma nat_eqb_eq (a b : nat) : Nat.eqb a b = true <-> a = b.
Proof. apply Nat.eqb_eq. Qed.

Lemma obj_set_plain (k : string) (v : JsValue) (o : Props) :
  k <> PROTO ->
  obj_set k v o = with_entries o (assoc_set String.eqb k v (entries o)).
Proof.
  intros Hk. unfold obj_set.
  destruct (String.eqb_spec k PROTO) as [->|_]; [contradiction|].
  simpl. now destruct (assoc_has String.eqb k (entries o)).
Qed.

Lemma entries_set_prototype_of (v : JsValue) (o : Props) :
  entries (set_prototype_of v o) = entries o.
Proof. now destruct v. Qed.

Lemma symbols_set_prototype_of (v : JsValue) (o : Props) :
  symbols (set_prototype_of v o) = symbols o.
Proof. now destruct v. Qed.

Lemma symbols_obj_set (k : string) (v : JsValue) (o : Props) :
  symbols (obj_set k v o) = symbols o.
Proof.
  unfold obj_set.
  destruct (assoc_has String.eqb k (entries o)); [reflexivity|].
  destruct (String.eqb k PROTO && proto_accessor_reachable (proto o));
    [apply symbols_set_prototype_of|reflexivity].
Qed.

(** A write under [k] leaves every other key as it was. *)
Lemma obj_set_get_other (k k' : string) (v : JsValue) (o : Props) :
  k' <> k ->
  assoc_get String.eqb k' (entries (obj_set k v o))
  = assoc_get String.eqb k' (entries o).
Proof.
  intros Hne. unfold obj_set.
  destruct (assoc_has String.eqb k (entries o)); simpl.
  - now apply assoc_get_set_other; [apply string_eqb_eq|].
  - destruct (String.eqb k PROTO && proto_accessor_reachable (proto o)); simpl.
    + now rewrite entries_set_prototype_of.
    + now apply assoc_get_set_other; [apply string_eqb_eq|].
Qed.

Lemma obj_set_get_same (k : string) (v : JsValue) (o : Props) :
  k <> PROTO ->
  assoc_get String.eqb k (entries (obj_set k v o)) = Some v.
Proof.
  intros Hk. rewrite obj_set_plain by assumption. simpl.
  apply assoc_get_set_same, string_eqb_eq.
Qed.

(** Own properties are never removed by a write. *)
Lemma has_own_obj_set (k k' : string) (v : JsValue) (o : Props) :
  k' <> PROTO ->
  has_own (obj_set k v o) k' = String.eqb k' k || has_own o k'.
Proof.
  intros Hk'. unfold has_own, obj_set.
  destruct (assoc_has String.eqb k (entries o)) eqn:Hhas; simpl.
  - apply assoc_has_set, string_eqb_eq.
  - destruct (String.eqb_spec k PROTO) as [->|Hk]; simpl.
    + destruct (proto_accessor_reachable (proto o)); simpl.
      * rewrite entries_set_prototype_of.
        now destruct (String.eqb_spec k' PROTO).
      * apply assoc_has_set, string_eqb_eq.
    + apply assoc_has_set, string_eqb_eq.
Qed.

Lemma nontransition_not_PROTO (k : string) :
  nontransition k = false -> k <> PROTO.
Proof. intros H ->. discriminate H. Qed.

Lemma without_transition_obj_set_keep (k : string) (v : JsValue) (o : Props) :
  nontransition k = true ->
  without_transition (obj_set k v o) = obj_set k v (without_transition o).
Proof.
  intros Hk. unfold obj_set. simpl.
  assert (Hhas : assoc_has String.eqb k (filter_keys nontransition (entries o))
                 = assoc_has String.eqb k (entries o)).
  { unfold assoc_has.
    rewrite (assoc_get_filter_keys String.eqb string_eqb_eq nontransition).
    now rewrite Hk. }
  rewrite Hhas.
  assert (Hset : filter_keys nontransition (assoc_set String.eqb k v (entries o))
                 = assoc_set String.eqb k v (filter_keys nontransition (entries o))).
  { now apply filter_keys_set_keep; [apply string_eqb_eq|]. }
  destruct (assoc_has String.eqb k (entries o)).
  - unfold without_transition, with_entries. simpl. now rewrite Hset.
  - destruct (String.eqb k PROTO && proto_accessor_reachable (proto o)).
    + now destruct v.
    + unfold without_transition, with_entries. simpl. now rewrite Hset.
Qed.

Lemma without_transition_obj_set_drop (k : string) (v : JsValue) (o : Props) :
  nontransition k = false ->
  without_transition (obj_set k v o) = without_transition o.
Proof.
  intros Hk. rewrite obj_set_plain by now apply nontransition_not_PROTO.
  unfold without_transition, with_entries. simpl.
  now rewrite (filter_keys_set_drop String.eqb string_eqb_eq nontransition).
Qed.

Lemma without_transition_sym_set (sym : Symbol) (v : JsValue) (o : Props) :
  without_transition (sym_set sym v o) = sym_set sym v (without_transition o).
Proof. reflexivity. Qed.

(* ================================================================== *)
(** ** The loops of [extractDirectives]                                 *)
(* ================================================================== *)

(** What one turn does to the two output bags and the page flag. *)
Lemma iteration_inv (cd : ClientDirectives) (ex ex' : ExtractedProps)
    (key : string) (value : JsValue) :
  iteration cd ex key value = inr ex' ->
  isPage ex' = (startsWith key "server:" && String.eqb key "server:root") || isPage ex
  /\ ((startsWith key "client:" = true
       /\ props ex' = props ex
       /\ propsWithoutTransitionAttributes ex'
          = propsWithoutTransitionAttributes ex)
      \/ (startsWith key "client:" = false
          /\ hydration ex' = hydration ex
          /\ props ex' = obj_set key value (props ex)
          /\ propsWithoutTransitionAttributes ex'
             = if nontransition key
               then obj_set key value (propsWithoutTransitionAttributes ex)
               else propsWithoutTransitionAttributes ex)).
Proof.
  unfold iteration. intros H.
  destruct (startsWith key "server:") eqn:Hs;
    destruct (String.eqb key "server:root") eqn:Hr;
    destruct (startsWith key "client:") eqn:Hc; simpl in *;
    try (match type of H with
         | match ?c with _ => _ end = _ => destruct c; [discriminate|]
         end);
    injection H as <-; simpl; (split; [reflexivity|]);
    try (left; repeat split; reflexivity);
    right; repeat split; reflexivity.
Qed.

(** What a turn on a [client:] key does to the hydration record. *)
Lemma iteration_client (cd : ClientDirectives) (ex : ExtractedProps)
    (key : string) (value : JsValue) :
  startsWith key "client:" = true ->
  iteration cd ex key value
  = match client_switch cd
            (match hydration ex with Some h => h | None => initial_hydration end)
            key value with
    | inl e => inl e
    | inr h' =>
        inr (mkExtracted
               ((startsWith key "server:" && String.eqb key "server:root")
                || isPage ex)
               (Some h') (props ex) (propsWithoutTransitionAttributes ex))
    end.
Proof.
  intros Hc. unfold iteration.
  destruct (startsWith key "server:"), (String.eqb key "server:root");
    simpl; rewrite Hc; reflexivity.
Qed.

Lemma iteration_other (cd : ClientDirectives) (ex : ExtractedProps)
    (key : string) (value : JsValue) :
  startsWith key "client:" = false ->
  exists ex', iteration cd ex key value = inr ex'.
Proof.
  intros Hc. unfold iteration.
  destruct (startsWith key "server:"), (String.eqb key "server:root");
    simpl; rewrite Hc; eexists; reflexivity.
Qed.

Lemma entries_loop_app (cd : ClientDirectives)
    (pre post : list (string * JsValue)) (ex : ExtractedProps) :
  entries_loop cd (pre ++ post) ex
  = match entries_loop cd pre ex with
    | inl e => inl e
    | inr ex' => entries_loop cd post ex'
    end.
Proof.
  revert ex. induction pre as [|[k v] pre IH]; intros ex; simpl.
  - reflexivity.
  - destruct (iteration cd ex k v); [reflexivity|apply IH].
Qed.

(** [propsWithoutTransitionAttributes] is [props] without the transition
    keys, all along the first loop. *)
Lemma entries_loop_without_transition (cd : ClientDirectives)
    (es : list (string * JsValue)) (ex ex' : ExtractedProps) :
  entries_loop cd es ex = inr ex' ->
  propsWithoutTransitionAttributes ex = without_transition (props ex) ->
  propsWithoutTransitionAttributes ex' = without_transition (props ex').
Proof.
  revert ex. induction es as [|[k v] es IH]; intros ex; simpl.
  - now intros [= <-].
  - destruct (iteration cd ex k v) as [e|ex1] eqn:Hit; [discriminate|].
    intros Hloop Hinv. apply (IH ex1 Hloop).
    apply iteration_inv in Hit.
    destruct Hit as [_ [(_ & Hp & Hq)|(_ & _ & Hp & Hq)]].
    + now rewrite Hp, Hq.
    + rewrite Hp, Hq, Hinv. destruct (nontransition k) eqn:Hk.
      * symmetry. now apply without_transition_obj_set_keep.
      * symmetry. now apply without_transition_obj_set_drop.
Qed.

(** The second loop touches the symbol-keyed properties only. *)
Lemma symbol_loop_fields (inputProps : Props) (syms : list Symbol)
    (ex : ExtractedProps) :
  let ex' := fold_left (symbol_iteration inputProps) syms ex in
  isPage ex' = isPage ex
  /\ hydration ex' = hydration ex
  /\ entries (props ex') = entries (props ex)
  /\ entries (propsWithoutTransitionAttributes ex')
     = entries (propsWithoutTransitionAttributes ex)
  /\ proto (props ex') = proto (props ex)
  /\ proto (propsWithoutTransitionAttributes ex')
     = proto (propsWithoutTransitionAttributes ex).
Proof.
  revert ex. induction syms as [|sym syms IH]; intros ex; simpl.
  - repeat split.
  - specialize (IH (symbol_iteration inputProps ex sym)). simpl in IH.
    exact IH.
Qed.

Lemma symbol_loop_without_transition (inputProps : Props)
    (syms : list Symbol) (ex : ExtractedProps) :
  propsWithoutTransitionAttributes ex = without_transition (props ex) ->
  propsWithoutTransitionAttributes (fold_left (symbol_iteration inputProps) syms ex)
  = without_transition (props (fold_left (symbol_iteration inputProps) syms ex)).
Proof.
  revert ex. induction syms as [|sym syms IH]; intros ex Hinv; simpl.
  - exact Hinv.
  - apply IH. simpl. rewrite Hinv. reflexivity.
Qed.

(** A symbol is looked up in the outputs as in the input. *)
Lemma symbol_loop_lookup (inputProps : Props) (syms : list Symbol)
    (ex : ExtractedProps) (sym : Symbol) :
  let ex' := fold_left (symbol_iteration inputProps) syms ex in
  (In sym syms ->
   assoc_get Nat.eqb sym (symbols (props ex')) = Some (sym_get inputProps sym)
   /\ assoc_get Nat.eqb sym (symbols (propsWithoutTransitionAttributes ex'))
      = Some (sym_get inputProps sym))
  /\ (~ In sym syms ->
      assoc_get Nat.eqb sym (symbols (props ex'))
      = assoc_get Nat.eqb sym (symbols (props ex))
      /\ assoc_get Nat.eqb sym (symbols (propsWithoutTransitionAttributes ex'))
         = assoc_get Nat.eqb sym (symbols (propsWithoutTransitionAttributes ex))).
Proof.
  revert ex. induction syms as [|s syms IH]; intros ex; simpl.
  - split; [intros []|intros _; split; reflexivity].
  - specialize (IH (symbol_iteration inputProps ex s)). simpl in IH.
    destruct IH as [IHin IHout].
    destruct (in_dec Nat.eq_dec sym syms) as [Hin|Hnotin].
    + split; [intros _; now apply IHin|].
      intros Hno. exfalso. apply Hno. now right.
    + split.
      * intros [->|Hin]; [|contradiction].
        destruct (IHout Hnotin) as [-> ->]. simpl.
        split; apply assoc_get_set_same, nat_eqb_eq.
      * intros Hno. destruct (IHout Hnotin) as [-> ->]. simpl.
        assert (sym <> s) by (intros ->; apply Hno; now left).
        split; now apply assoc_get_set_other; [apply nat_eqb_eq|].
Qed.

(** The result of a successful extraction, loop by loop. *)
Lemma extractDirectives_inr (inputProps : Props) (cd : ClientDirectives)
    (ex : ExtractedProps) :
  extractDirectives inputProps cd = inr ex ->
  exists mid,
    entries_loop cd (entries inputProps) initial_extracted = inr mid
    /\ ex = fold_left (symbol_iteration inputProps)
              (map fst (symbols inputProps)) mid.
Proof.
  unfold extractDirectives, Object_entries, Object_getOwnPropertySymbols.
  destruct (entries_loop cd (entries inputProps) initial_extracted) as [e|mid];
    [discriminate|].
  intros [= <-]. now exists mid.
Qed.

Lemma extract_without_transition (inputProps : Props) (cd : ClientDirectives)
    (ex : ExtractedProps) :
  extractDirectives inputProps cd = inr ex ->
  propsWithoutTransitionAttributes ex = without_transition (props ex).
Proof.
  intros H. apply extractDirectives_inr in H. destruct H as (mid & Hloop & ->).
  apply symbol_loop_without_transition.
  now apply (entries_loop_without_transition cd _ _ _ Hloop).
Qed.

(** A key outside [client:], other than [__proto__], is looked up in
    [props] after the first loop as the entries left to process bind it, or
    else as before. *)
Lemma entries_loop_lookup (cd : ClientDirectives)
    (es : list (string * JsValue)) (ex ex' : ExtractedProps) (k : string) :
  entries_loop cd es ex = inr ex' ->
  NoDup (map fst es) ->
  startsWith k "client:" = false ->
  k <> PROTO ->
  assoc_get String.eqb k (entries (props ex'))
  = match assoc_get String.eqb k es with
    | Some v => Some v
    | None => assoc_get String.eqb k (entries (props ex))
    end.
Proof.
  intros Hloop Hnd Hc Hk. revert ex Hloop.
  induction es as [|[k0 v0] es IH]; intros ex; simpl.
  - now intros [= <-].
  - destruct (iteration cd ex k0 v0) as [e|ex1] eqn:Hit; [discriminate|].
    intros Hloop. inversion Hnd as [|? ? Hnotin Hnd']; subst.
    rewrite (IH Hnd' ex1 Hloop).
    apply iteration_inv in Hit.
    destruct (String.eqb_spec k k0) as [<-|Hne].
    + assert (Hnone : assoc_get String.eqb k es = None).
      { now apply (assoc_get_None_notin String.eqb string_eqb_eq). }
      rewrite Hnone.
      destruct Hit as [_ [(Hc' & _)|(_ & _ & Hp & _)]]; [congruence|].
      rewrite Hp. now apply obj_set_get_same.
    + destruct (assoc_get String.eqb k es); [reflexivity|].
      destruct Hit as [_ [(_ & Hp & _)|(_ & _ & Hp & _)]]; rewrite Hp;
        [reflexivity|now apply obj_set_get_other].
Qed.

Lemma entries_loop_isPage (cd : ClientDirectives)
    (es : list (string * JsValue)) (ex ex' : ExtractedProps) :
  entries_loop cd es ex = inr ex' ->
  isPage ex' = existsb (fun kv => String.eqb (fst kv) "server:root") es
               || isPage ex.
Proof.
  revert ex. induction es as [|[k v] es IH]; intros ex; simpl.
  - now intros [= <-].
  - destruct (iteration cd ex k v) as [e|ex1] eqn:Hit; [discriminate|].
    intros Hloop. rewrite (IH ex1 Hloop).
    apply iteration_inv in Hit. destruct Hit as [-> _].
    destruct (String.eqb_spec k "server:root") as [->|_]; simpl.
    + now rewrite orb_true_r.
    + rewrite andb_false_r. simpl.
      now destruct (existsb _ es).
Qed.

(** An entry of a well-formed bag under a key outside [client:] reaches
    [props], and reaches [propsWithoutTransitionAttributes] unless its key is
    a transition key. *)
Lemma extract_copies (inputProps : Props) (cd : ClientDirectives)
    (ex : ExtractedProps) (k : string) (v : JsValue) :
  well_formed inputProps ->
  extractDirectives inputProps cd = inr ex ->
  In (k, v) (entries inputProps) ->
  startsWith k "client:" = false ->
  k <> PROTO ->
  assoc_get String.eqb k (entries (props ex)) = Some v
  /\ assoc_get String.eqb k (entries (propsWithoutTransitionAttributes ex))
     = if nontransition k then Some v else None.
Proof.
  intros [Hnd _] Hex Hin Hc Hk.
  pose proof (extract_without_transition _ _ _ Hex) as Hwt.
  apply extractDirectives_inr in Hex. destruct Hex as (mid & Hloop & ->).
  pose proof (symbol_loop_fields inputProps (map fst (symbols inputProps)) mid)
    as Hf. simpl in Hf. destruct Hf as (_ & _ & He & _).
  assert (Hget : assoc_get String.eqb k
                   (entries (props (fold_left (symbol_iteration inputProps)
                                      (map fst (symbols inputProps)) mid)))
                 = Some v).
  { rewrite He, (entries_loop_lookup cd _ _ _ k Hloop Hnd Hc Hk).
    now rewrite (assoc_get_In String.eqb string_eqb_eq k v _ Hnd Hin). }
  split; [exact Hget|].
  rewrite Hwt. simpl.
  rewrite (assoc_get_filter_keys String.eqb string_eqb_eq nontransition).
  now rewrite Hget.
Qed.

Lemma transition_not_client (k : string) :
  nontransition k = false -> startsWith k "client:" = false.
Proof.
  intros H.
  destruct (String.eqb_spec k "data-astro-transition-scope") as [->|N1];
    [reflexivity|].
  destruct (String.eqb_spec k "data-astro-transition-persist") as [->|N2];
    [reflexivity|].
  exfalso. unfold nontransition, includes, transitionDirectivesToCopyOnIsland in H.
  cbn [existsb] in H.
  apply String.eqb_neq in N1, N2. rewrite N1, N2 in H. discriminate.
Qed.

(** A string that starts with [p] is [p] followed by a rest. *)
Lemma startsWith_app (s p : string) :
  startsWith s p = true -> exists rest, s = p ++ rest.
Proof.
  unfold startsWith. revert s.
  induction p as [|a p IH]; intros s H.
  - now exists s.
  - destruct s as [|b s]; [discriminate|]. cbn [String.prefix] in H.
    destruct (ascii_dec a b) as [<-|]; [|discriminate].
    destruct (IH s H) as [rest ->]. now exists rest.
Qed.

Lemma server_key_facts (k : string) :
  startsWith k "server:" = true ->
  startsWith k "client:" = false /\ k <> PROTO /\ nontransition k = true.
Proof.
  intros H. apply startsWith_app in H. destruct H as [rest ->].
  change ("server:" ++ rest) with (String "s" ("erver:" ++ rest)).
  generalize ("erver:" ++ rest). intros k.
  split; [reflexivity|]. split; [discriminate|].
  destruct (String.eqb_spec (String "s" k) "data-astro-transition-scope")
    as [E|N1]; [discriminate E|].
  destruct (String.eqb_spec (String "s" k) "data-astro-transition-persist")
    as [E|N2]; [discriminate E|].
  unfold nontransition, includes, transitionDirectivesToCopyOnIsland.
  cbn [existsb].
  apply String.eqb_neq in N1, N2. now rewrite N1, N2.
Qed.

(** Which own string keys [props] has after the first loop. *)
Lemma entries_loop_has_own (cd : ClientDirectives)
    (es : list (string * JsValue)) (ex ex' : ExtractedProps) (k : string) :
  entries_loop cd es ex = inr ex' ->
  k <> PROTO ->
  has_own (props ex') k
  = existsb (fun kv => String.eqb k (fst kv)
                       && negb (startsWith (fst kv) "client:")) es
    || has_own (props ex) k.
Proof.
  intros Hloop Hk. revert ex Hloop.
  induction es as [|[k0 v0] es IH]; intros ex; simpl.
  - now intros [= <-].
  - destruct (iteration cd ex k0 v0) as [e|ex1] eqn:Hit; [discriminate|].
    intros Hloop. rewrite (IH ex1 Hloop).
    apply iteration_inv in Hit.
    destruct Hit as [_ [(Hc & Hp & _)|(Hc & _ & Hp & _)]]; rewrite Hp, Hc; simpl.
    + now rewrite andb_false_r.
    + rewrite has_own_obj_set by assumption. rewrite andb_true_r.
      destruct (existsb _ es), (String.eqb k k0); reflexivity.
Qed.

Lemma filter_keys_all {V : Type} (keep : string -> bool)
    (l : list (string * V)) :
  (forall kv, In kv l -> keep (fst kv) = true) -> filter_keys keep l = l.
Proof.
  induction l as [|kv l IH]; intros H; simpl; [reflexivity|].
  rewrite (H kv) by now left.
  f_equal. apply IH. intros kv' Hin. apply H. now right.
Qed.

Ltac solve_NoDup :=
  repeat (constructor; [simpl; intuition discriminate|]); constructor.

(* ================================================================== *)
(** ** Properties of [extractDirectives]                                *)
(* ================================================================== *)

(** C1 (as amended).  On a bag none of whose string keys starts with
    [client:] or [server:], extraction succeeds with no hydration record and
    [isPage] false, and [propsWithoutTransitionAttributes] is [props]
    without the transition-keyed entries; the two bags are equal exactly
    when the input holds no transition key. *)
Theorem extract_plain_bag (inputProps : Props) (cd : ClientDirectives) :
  (forall k v, In (k, v) (entries inputProps) ->
     startsWith k "client:" = false /\ startsWith k "server:" = false) ->
  exists ex,
    extractDirectives inputProps cd = inr ex
    /\ hydration ex = None
    /\ isPage ex = false
    /\ propsWithoutTransitionAttributes ex = without_transition (props ex)
    /\ (propsWithoutTransitionAttributes ex = props ex
        <-> forall k v, In (k, v) (entries inputProps) -> nontransition k = true).
Proof.
  intros Hplain.
  assert (Hloop : forall es ex,
             (forall k v, In (k, v) es ->
                startsWith k "client:" = false /\ startsWith k "server:" = false) ->
             exists ex', entries_loop cd es ex = inr ex'
                         /\ hydration ex' = hydration ex
                         /\ isPage ex' = isPage ex).
  { induction es as [|[k v] es IH]; intros ex Hes; simpl.
    - now exists ex.
    - destruct (Hes k v (or_introl eq_refl)) as [Hc Hs].
      destruct (iteration_other cd ex k v Hc) as [ex1 Hit]. rewrite Hit.
      destruct (IH ex1) as (ex' & Hl & Hh & Hp).
      { intros k' v' Hin. apply (Hes k' v'). now right. }
      exists ex'. split; [exact Hl|].
      apply iteration_inv in Hit.
      destruct Hit as [Hpage [(Hc' & _)|(_ & Hh' & _)]]; [congruence|].
      rewrite Hh, Hp, Hh', Hpage, Hs. now split. }
  destruct (Hloop (entries inputProps) initial_extracted Hplain)
    as (mid & Hmid & Hh & Hp).
  set (ex := fold_left (symbol_iteration inputProps)
               (map fst (symbols inputProps)) mid).
  assert (Hex : extractDirectives inputProps cd = inr ex).
  { unfold extractDirectives, Object_entries, Object_getOwnPropertySymbols.
    now rewrite Hmid. }
  pose proof (symbol_loop_fields inputProps (map fst (symbols inputProps)) mid)
    as Hf. simpl in Hf. fold ex in Hf.
  destruct Hf as (Hf1 & Hf2 & Hf3 & _).
  pose proof (extract_without_transition _ _ _ Hex) as Hwt.
  exists ex. split; [exact Hex|]. split; [now rewrite Hf2, Hh|].
  split; [now rewrite Hf1, Hp|]. split; [exact Hwt|].
  assert (Hown : forall k, k <> PROTO ->
            has_own (props ex) k
            = existsb (fun kv => String.eqb k (fst kv)
                                 && negb (startsWith (fst kv) "client:"))
                (entries inputProps)).
  { intros k Hk. unfold has_own at 1. rewrite Hf3.
    change (assoc_has String.eqb k (entries (props mid)))
      with (has_own (props mid) k).
    rewrite (entries_loop_has_own cd _ _ _ k Hmid Hk).
    apply orb_false_r. }
  split.
  - intros Heq k v Hin. destruct (nontransition k) eqn:Hk; [reflexivity|].
    exfalso.
    assert (Hhas : has_own (props ex) k = true).
    { rewrite Hown by now apply nontransition_not_PROTO.
      apply existsb_exists. exists (k, v). split; [exact Hin|]. simpl.
      rewrite String.eqb_refl.
      now rewrite (proj1 (Hplain k v Hin)). }
    rewrite <- Heq, Hwt in Hhas. unfold has_own, assoc_has in Hhas. simpl in Hhas.
    rewrite (assoc_get_filter_keys String.eqb string_eqb_eq nontransition) in Hhas.
    rewrite Hk in Hhas. discriminate.
  - intros Hnone. rewrite Hwt. unfold without_transition.
    rewrite filter_keys_all; [now destruct (props ex)|].
    intros [k v] Hin. simpl.
    destruct (nontransition k) eqn:Hk; [reflexivity|]. exfalso.
    assert (Hhas : has_own (props ex) k = true).
    { apply (assoc_has_In String.eqb string_eqb_eq).
      change k with (fst (k, v)). now apply in_map. }
    rewrite Hown in Hhas by now apply nontransition_not_PROTO.
    apply existsb_exists in Hhas. destruct Hhas as ([k' v'] & Hin' & Hk').
    simpl in Hk'. apply andb_prop in Hk'. destruct Hk' as [Hkk _].
    apply String.eqb_eq in Hkk. subst k'.
    rewrite (Hnone k v' Hin') in Hk. discriminate.
Qed.

Lemma extract_plain_bag_witness :
  exists ex,
    extractDirectives plain_bag registry = inr ex
    /\ hydration ex = None
    /\ isPage ex = false
    /\ propsWithoutTransitionAttributes ex = without_transition (props ex)
    /\ (propsWithoutTransitionAttributes ex = props ex
        <-> forall k v, In (k, v) (entries plain_bag) -> nontransition k = true).
Proof.
  apply (extract_plain_bag plain_bag registry).
  intros k v [H|[H|[]]]; injection H as <- <-; split; reflexivity.
Defined.

(** C1 (as stated) fails: a bag with a transition key and no [client:] or
    [server:] key is extracted into two different bags. *)
Lemma extract_plain_bag_transition_counterexample :
  let inputProps := bag [("data-astro-transition-scope", VStr "slide")] in
  (forall k v, In (k, v) (entries inputProps) ->
     startsWith k "client:" = false /\ startsWith k "server:" = false)
  /\ exists ex,
       extractDirectives inputProps registry = inr ex
       /\ props ex <> propsWithoutTransitionAttributes ex.
Proof.
  simpl. split.
  - intros k v [H|[]]. injection H as <- <-. split; reflexivity.
  - eexists. split; [reflexivity|]. discriminate.
Qed.

(** C5.  After a successful extraction of a well-formed bag,
    [propsWithoutTransitionAttributes] is [props] without the entries under
    the two transition keys: every other key is bound alike in both, a
    transition-keyed entry of the input is in [props] and not in
    [propsWithoutTransitionAttributes], and every symbol-keyed entry of the
    input is in both bags with its value. *)
Theorem extract_output_bags (inputProps : Props) (cd : ClientDirectives)
    (ex : ExtractedProps) :
  well_formed inputProps ->
  extractDirectives inputProps cd = inr ex ->
  propsWithoutTransitionAttributes ex = without_transition (props ex)
  /\ (forall k, nontransition k = true ->
        assoc_get String.eqb k (entries (propsWithoutTransitionAttributes ex))
        = assoc_get String.eqb k (entries (props ex)))
  /\ (forall k v, In (k, v) (entries inputProps) ->
        includes transitionDirectivesToCopyOnIsland k = true ->
        assoc_get String.eqb k (entries (props ex)) = Some v
        /\ assoc_get String.eqb k (entries (propsWithoutTransitionAttributes ex))
           = None)
  /\ (forall sym v, In (sym, v) (symbols inputProps) ->
        assoc_get Nat.eqb sym (symbols (props ex)) = Some v
        /\ assoc_get Nat.eqb sym (symbols (propsWithoutTransitionAttributes ex))
           = Some v).
Proof.
  intros Hwf Hex.
  pose proof (extract_without_transition _ _ _ Hex) as Hwt.
  split; [exact Hwt|]. split; [|split].
  - intros k Hk. rewrite Hwt. simpl.
    rewrite (assoc_get_filter_keys String.eqb string_eqb_eq nontransition).
    now rewrite Hk.
  - intros k v Hin Hk.
    assert (Hnt : nontransition k = false) by (unfold nontransition; now rewrite Hk).
    pose proof (extract_copies _ _ _ k v Hwf Hex Hin
                  (transition_not_client k Hnt)
                  (nontransition_not_PROTO k Hnt)) as [Hp Hq].
    now rewrite Hnt in Hq.
  - intros sym v Hin. destruct Hwf as [_ Hnd].
    apply extractDirectives_inr in Hex. destruct Hex as (mid & _ & ->).
    pose proof (symbol_loop_lookup inputProps (map fst (symbols inputProps))
                  mid sym) as Hl. simpl in Hl. destruct Hl as [Hl _].
    assert (Hsym : In sym (map fst (symbols inputProps))).
    { change sym with (fst (sym, v)). now apply in_map. }
    assert (Hget : sym_get inputProps sym = v).
    { unfold sym_get.
      now rewrite (assoc_get_In Nat.eqb nat_eqb_eq sym v _ Hnd Hin). }
    rewrite <- Hget. exact (Hl Hsym).
Qed.

Lemma island_bag_well_formed : well_formed island_bag.
Proof. split; simpl; solve_NoDup. Qed.

Lemma extract_output_bags_witness :
  well_formed island_bag
  /\ extractDirectives island_bag registry = inr island_extracted
  /\ assoc_get String.eqb "data-astro-transition-scope"
       (entries (props island_extracted)) = Some (VStr "astro-abc")
  /\ assoc_get String.eqb "data-astro-transition-scope"
       (entries (propsWithoutTransitionAttributes island_extracted)) = None
  /\ assoc_get Nat.eqb 4 (symbols (propsWithoutTransitionAttributes island_extracted))
     = Some (VStr "slot").
Proof.
  split; [exact island_bag_well_formed|]. split; [reflexivity|].
  destruct (extract_output_bags island_bag registry island_extracted
              island_bag_well_formed eq_refl) as (_ & _ & Htr & Hsym).
  destruct (Htr "data-astro-transition-scope" (VStr "astro-abc")) as [Hp Hq];
    [simpl; tauto|reflexivity|].
  destruct (Hsym 4 (VStr "slot")) as [_ Hs]; [simpl; tauto|].
  repeat split; assumption.
Defined.

(** C10.  After a successful extraction of a well-formed bag, every entry
    whose key starts with [server:], [server:root] included, is in both
    [props] and [propsWithoutTransitionAttributes] with its value; for
    [server:root] the page flag is set as well. *)
Theorem extract_server_keys (inputProps : Props) (cd : ClientDirectives)
    (ex : ExtractedProps) (k : string) (v : JsValue) :
  well_formed inputProps ->
  extractDirectives inputProps cd = inr ex ->
  In (k, v) (entries inputProps) ->
  startsWith k "server:" = true ->
  assoc_get String.eqb k (entries (props ex)) = Some v
  /\ assoc_get String.eqb k (entries (propsWithoutTransitionAttributes ex))
     = Some v
  /\ (k = "server:root" -> isPage ex = true).
Proof.
  intros Hwf Hex Hin Hs.
  destruct (server_key_facts k Hs) as (Hc & Hk & Hnt).
  pose proof (extract_copies _ _ _ k v Hwf Hex Hin Hc Hk) as [Hp Hq].
  rewrite Hnt in Hq. split; [exact Hp|]. split; [exact Hq|].
  intros ->. apply extractDirectives_inr in Hex.
  destruct Hex as (mid & Hloop & ->).
  pose proof (symbol_loop_fields inputProps (map fst (symbols inputProps)) mid)
    as Hf. simpl in Hf. destruct Hf as (-> & _).
  rewrite (entries_loop_isPage cd _ _ _ Hloop).
  apply orb_true_iff. left. apply existsb_exists.
  exists ("server:root", v). split; [exact Hin|reflexivity].
Qed.

Lemma extract_server_keys_witness :
  assoc_get String.eqb "server:root" (entries (props island_extracted))
  = Some (VBool true)
  /\ assoc_get String.eqb "server:root"
       (entries (propsWithoutTransitionAttributes island_extracted))
     = Some (VBool true)
  /\ ("server:root" = "server:root" -> isPage island_extracted = true).
Proof.
  apply (extract_server_keys island_bag registry island_extracted
           "server:root" (VBool true) island_bag_well_formed eq_refl).
  - simpl. tauto.
  - reflexivity.
Defined.

(* ================================================================== *)
(** ** The switch on [client:] keys                                     *)
(* ================================================================== *)

(** The [default] case, outcome by outcome. *)
Lemma default_case_spec (cd : ClientDirectives) (h : HydrationMetadata.t)
    (key : string) (value : JsValue) :
  default_case cd h key value
  = match directive_name key with
    | None => inl (Error_ (InvalidHydrationDirective key (hydrationMethods cd)))
    | Some name =>
        if negb (Map_has cd name) then
          inl (Error_ (InvalidHydrationDirective key (hydrationMethods cd)))
        else if String.eqb name "media"
                && negb (String.eqb (typeof value) "string") then
          inl (AstroError MissingMediaQueryDirective)
        else
          inr (HydrationMetadata.mk name value (HydrationMetadata.componentUrl h)
                 (HydrationMetadata.componentExport h))
    end.
Proof. reflexivity. Qed.

Lemma default_case_inr (cd : ClientDirectives) (h h' : HydrationMetadata.t)
    (key : string) (value : JsValue) :
  default_case cd h key value = inr h' ->
  exists name,
    directive_name key = Some name
    /\ Map_has cd name = true
    /\ h' = HydrationMetadata.mk name value (HydrationMetadata.componentUrl h)
              (HydrationMetadata.componentExport h).
Proof.
  rewrite default_case_spec.
  destruct (directive_name key) as [name|]; [|discriminate].
  destruct (Map_has cd name) eqn:Hhas; simpl; [|discriminate].
  destruct (String.eqb name "media" && negb (String.eqb (typeof value) "string"));
    [discriminate|].
  intros [= <-]. now exists name.
Qed.

Lemma includes_reserved_false (key : string) :
  includes reserved_client_keys key = false ->
  String.eqb key "client:component-path" = false
  /\ String.eqb key "client:component-export" = false
  /\ String.eqb key "client:component-hydration" = false
  /\ String.eqb key "client:display-name" = false
  /\ String.eqb key "client:params" = false.
Proof.
  unfold includes, reserved_client_keys. cbn [existsb]. intros H.
  repeat (apply orb_false_elim in H; destruct H as [? H]).
  repeat split; assumption.
Qed.

(** An entry that is dispatched goes through the [default] case with the
    dispatched key and value. *)
Lemma client_switch_dispatched (cd : ClientDirectives) (h : HydrationMetadata.t)
    (key key' : string) (value value' : JsValue) :
  dispatched key value = Some (key', value') ->
  startsWith key "client:" = true
  /\ client_switch cd h key value = default_case cd h key' value'.
Proof.
  unfold dispatched. destruct (startsWith key "client:"); [|discriminate].
  split; [reflexivity|].
  destruct (String.eqb_spec key "client:params") as [->|Hne].
  - unfold client_switch. cbn [String.eqb Ascii.eqb Bool.eqb andb].
    destruct (params_case value) as [e|[kv|]]; try discriminate.
    injection H as ->. reflexivity.
  - destruct (includes reserved_client_keys key) eqn:Hinc; [discriminate|].
    injection H as <- <-.
    apply includes_reserved_false in Hinc.
    destruct Hinc as (H1 & H2 & H3 & H4 & H5).
    unfold client_switch. now rewrite H1, H2, H3, H4, H5.
Qed.

(** An entry under a [client:] key that is not dispatched leaves the
    directive name alone. *)
Lemma client_switch_not_dispatched (cd : ClientDirectives)
    (h h' : HydrationMetadata.t) (key : string) (value : JsValue) :
  startsWith key "client:" = true ->
  dispatched key value = None ->
  client_switch cd h key value = inr h' ->
  HydrationMetadata.directive h' = HydrationMetadata.directive h.
Proof.
  unfold dispatched. intros -> Hd.
  unfold client_switch.
  destruct (String.eqb key "client:component-path") eqn:H1;
    [now intros [= <-]|].
  destruct (String.eqb key "client:component-export") eqn:H2;
    [now intros [= <-]|].
  destruct (String.eqb key "client:component-hydration") eqn:H3;
    [now intros [= <-]|].
  destruct (String.eqb key "client:display-name") eqn:H4;
    [now intros [= <-]|].
  destruct (String.eqb key "client:params") eqn:H5.
  - destruct (params_case value) as [e|[kv|]]; try discriminate.
    now intros [= <-].
  - unfold includes, reserved_client_keys in Hd. cbn [existsb] in Hd.
    rewrite H1, H2, H3, H4, H5 in Hd. discriminate.
Qed.

(** A turn on a dispatched entry leaves a registered name in the record; a
    turn on any other entry leaves the name as it was. *)
Lemma iteration_current_name (cd : ClientDirectives) (ex ex' : ExtractedProps)
    (key : string) (value : JsValue) :
  iteration cd ex key value = inr ex' ->
  match dispatched key value with
  | Some _ => Map_has cd (current_name ex') = true /\ hydration ex' <> None
  | None => current_name ex' = current_name ex
  end.
Proof.
  intros Hit.
  destruct (dispatched key value) as [[key' value']|] eqn:Hd.
  - destruct (client_switch_dispatched cd
                (match hydration ex with Some h => h | None => initial_hydration end)
                _ _ _ _ Hd) as [Hc Hsw].
    rewrite (iteration_client cd ex key value Hc), Hsw in Hit.
    destruct (default_case cd _ key' value') as [e|h'] eqn:Hdef; [discriminate|].
    injection Hit as <-.
    apply default_case_inr in Hdef. destruct Hdef as (name & _ & Hhas & ->).
    unfold current_name. simpl. split; [exact Hhas|discriminate].
  - destruct (startsWith key "client:") eqn:Hc.
    + rewrite (iteration_client cd ex key value Hc) in Hit.
      destruct (client_switch cd _ key value) as [e|h'] eqn:Hsw; [discriminate|].
      injection Hit as <-.
      apply (client_switch_not_dispatched cd _ _ _ _ Hc Hd) in Hsw.
      unfold current_name. simpl. rewrite Hsw.
      now destruct (hydration ex).
    + apply iteration_inv in Hit.
      destruct Hit as [_ [(Hc' & _)|(_ & Hh & _)]]; [congruence|].
      unfold current_name. now rewrite Hh.
Qed.

Lemma entries_loop_current_name (cd : ClientDirectives)
    (es : list (string * JsValue)) (ex ex' : ExtractedProps) :
  entries_loop cd es ex = inr ex' ->
  if existsb (fun kv => match dispatched (fst kv) (snd kv) with
                        | Some _ => true
                        | None => false
                        end) es
  then Map_has cd (current_name ex') = true
  else current_name ex' = current_name ex.
Proof.
  revert ex. induction es as [|[k v] es IH]; intros ex; simpl.
  - now intros [= <-].
  - destruct (iteration cd ex k v) as [e|ex1] eqn:Hit; [discriminate|].
    intros Hloop. specialize (IH ex1 Hloop).
    apply iteration_current_name in Hit.
    destruct (existsb _ es).
    + now rewrite orb_true_r.
    + rewrite orb_false_r.
      destruct (dispatched k v); [|congruence].
      rewrite IH. tauto.
Qed.

(** C3 (as amended).  After a successful extraction with a hydration record,
    the directive name is registered whenever some entry was dispatched to
    the canonical case; when none was (the [client:] keys are among
    [client:component-path], [client:component-export],
    [client:component-hydration], [client:display-name] and a nullish
    [client:params]) the name is the empty string the record starts with. *)
Theorem extract_directive_name (inputProps : Props) (cd : ClientDirectives)
    (ex : ExtractedProps) (h : HydrationMetadata.t) :
  extractDirectives inputProps cd = inr ex ->
  hydration ex = Some h ->
  if existsb (fun kv => match dispatched (fst kv) (snd kv) with
                        | Some _ => true
                        | None => false
                        end) (entries inputProps)
  then Map_has cd (HydrationMetadata.directive h) = true
  else HydrationMetadata.directive h = "".
Proof.
  intros Hex Hh. apply extractDirectives_inr in Hex.
  destruct Hex as (mid & Hloop & ->).
  pose proof (symbol_loop_fields inputProps (map fst (symbols inputProps)) mid)
    as Hf. simpl in Hf. destruct Hf as (_ & Hhyd & _).
  rewrite Hhyd in Hh.
  pose proof (entries_loop_current_name cd _ _ _ Hloop) as Hname.
  unfold current_name in Hname at 1 2. rewrite Hh in Hname.
  exact Hname.
Qed.

Lemma extract_directive_name_witness :
  let h := HydrationMetadata.mk "load" (VStr "") (VStr "")
             (ComponentExport.mk (VStr "")) in
  extractDirectives island_bag registry = inr island_extracted
  /\ hydration island_extracted = Some h
  /\ Map_has registry (HydrationMetadata.directive h) = true.
Proof.
  intros h. split; [reflexivity|]. split; [reflexivity|].
  exact (extract_directive_name island_bag registry island_extracted h
           eq_refl eq_refl).
Defined.

(** C3 (as stated) fails: with [client:display-name] as the only [client:]
    key, extraction succeeds with a hydration record whose name, the empty
    string, is not registered, although the bag has a [client:] key other
    than [client:component-path] and [client:component-export]. *)
Lemma extract_directive_name_counterexample :
  let inputProps := bag [("client:display-name", VStr "Counter")] in
  exists ex h,
    extractDirectives inputProps registry = inr ex
    /\ hydration ex = Some h
    /\ Map_has registry (HydrationMetadata.directive h) = false
    /\ exists k v,
         In (k, v) (entries inputProps)
         /\ startsWith k "client:" = true
         /\ k <> "client:component-path"
         /\ k <> "client:component-export".
Proof.
  simpl. eexists. eexists. split; [reflexivity|]. split; [reflexivity|].
  split; [reflexivity|].
  exists "client:display-name", (VStr "Counter").
  split; [now left|]. split; [reflexivity|]. split; discriminate.
Qed.

Lemma client_key_not_server (key : string) :
  startsWith key "client:" = true -> startsWith key "server:" = false.
Proof.
  intros H. apply startsWith_app in H. destruct H as [rest ->]. reflexivity.
Qed.

Lemma startsWith_client (suffix : string) :
  startsWith ("client:" ++ suffix) "client:" = true.
Proof. unfold startsWith. now destruct suffix. Qed.

(** A turn on a dispatched entry is the [default] case on the record. *)
Lemma iteration_dispatched (cd : ClientDirectives) (ex : ExtractedProps)
    (key key' : string) (value value' : JsValue) :
  dispatched key value = Some (key', value') ->
  iteration cd ex key value
  = match default_case cd
            (match hydration ex with Some h => h | None => initial_hydration end)
            key' value' with
    | inl e => inl e
    | inr h' =>
        inr (mkExtracted (isPage ex) (Some h') (props ex)
               (propsWithoutTransitionAttributes ex))
    end.
Proof.
  intros Hd.
  destruct (client_switch_dispatched cd
              (match hydration ex with Some h => h | None => initial_hydration end)
              _ _ _ _ Hd) as [Hc Hsw].
  rewrite (iteration_client cd ex key value Hc), Hsw.
  now rewrite (client_key_not_server key Hc).
Qed.

(** ** [client:params] *)

Lemma params_case_inl (v : JsValue) (e : Exception) :
  params_case v = inl e -> InvalidDirectiveValue e.
Proof.
  unfold params_case.
  destruct (isNullish v); [discriminate|].
  destruct (negb (isObject v)); [now intros [= <-]|].
  destruct (existsb _ (Object_keys v)); [now intros [= <-]|].
  destruct (get_field v "directive"); intros [= <-]; exact I.
Qed.

Lemma params_case_break (v : JsValue) :
  params_case v = inr None <-> isNullish v = true.
Proof.
  unfold params_case. destruct (isNullish v).
  - tauto.
  - split; [|discriminate].
    destruct (negb (isObject v)); [discriminate|].
    destruct (existsb _ (Object_keys v)); [discriminate|].
    destruct (get_field v "directive"); discriminate.
Qed.

Lemma params_keys_Forall (keys : list string) :
  existsb (fun _key => negb (String.eqb _key "directive")
                       && negb (String.eqb _key "value")) keys = false
  <-> Forall (fun k => k = "directive" \/ k = "value") keys.
Proof.
  induction keys as [|k keys IH]; simpl.
  - split; [constructor|reflexivity].
  - rewrite orb_false_iff, IH. split.
    + intros [Hk Hks]. constructor; [|exact Hks].
      destruct (String.eqb_spec k "directive"); [now left|].
      destruct (String.eqb_spec k "value"); [now right|discriminate].
    + intros H. inversion H as [|? ? [->| ->] Hks]; subst; now split.
Qed.

(** The value passes the checks of [case 'client:params'] exactly when it has
    the shape the specification describes. *)
Lemma params_case_shape (v : JsValue) (key' : string) (w : JsValue) :
  params_case v = inr (Some (key', w))
  <-> exists d, key' = "client:" ++ d /\ ParamsShape v d w.
Proof.
  split.
  - unfold params_case.
    destruct (isNullish v) eqn:Hn; [discriminate|].
    destruct (isObject v) eqn:Ho; simpl; [|discriminate].
    destruct (existsb _ (Object_keys v)) eqn:Hk; [discriminate|].
    destruct v as [| | | | |fields|items]; try discriminate.
    + simpl. destruct (assoc_get String.eqb "directive" fields)
        as [[| | | |d| |]|] eqn:Hd; try discriminate.
      intros [= <- <-]. exists d. split; [reflexivity|].
      exists fields. split; [reflexivity|].
      split; [now apply params_keys_Forall|]. now split.
  - intros (d & -> & fields & -> & Hkeys & Hd & ->).
    unfold params_case. simpl.
    apply params_keys_Forall in Hkeys. rewrite Hkeys, Hd. reflexivity.
Qed.

Lemma client_switch_params (cd : ClientDirectives) (h : HydrationMetadata.t)
    (v : JsValue) :
  client_switch cd h "client:params" v
  = match params_case v with
    | inl e => inl e
    | inr None => inr h
    | inr (Some (key', value')) => default_case cd h key' value'
    end.
Proof. reflexivity. Qed.

Lemma extract_at_position (cd : ClientDirectives)
    (pre post : list (string * JsValue)) (syms : list (Symbol * JsValue))
    (p : Prototype) (k1 k2 : string) (v1 v2 : JsValue) :
  (forall ex, iteration cd ex k1 v1 = iteration cd ex k2 v2) ->
  extractDirectives (mkProps (pre ++ (k1, v1) :: post) syms p) cd
  = extractDirectives (mkProps (pre ++ (k2, v2) :: post) syms p) cd.
Proof.
  intros Hit. unfold extractDirectives, Object_entries. simpl.
  rewrite !entries_loop_app.
  destruct (entries_loop cd pre initial_extracted) as [e|ex]; [reflexivity|].
  simpl. now rewrite Hit.
Qed.

(** C2 (as amended).  A turn of the loop on [client:params]:
    - with a nullish value it does nothing but create the hydration record
      when there is none yet;
    - with any other value that is not an object whose keys are only
      [directive], a string, and optionally [value], it fails with an
      [InvalidDirectiveValue] error;
    - with a value of that shape it is the canonical ([default]) case on the
      key [client:<directive>] and the [value] field, which is what the key
      [client:<directive>] with that value does at the same position
      whenever [client:<directive>] is not a key with a case of its own;
    - with [{directive: "idle"}] and [idle] registered the record names
      [idle] and its argument is [undefined]. *)
Theorem params_rewrite (cd : ClientDirectives) (ex : ExtractedProps)
    (v : JsValue) :
  let h0 := match hydration ex with Some h => h | None => initial_hydration end in
  (isNullish v = true ->
   iteration cd ex "client:params" v
   = inr (mkExtracted (isPage ex) (Some h0) (props ex)
            (propsWithoutTransitionAttributes ex)))
  /\ (isNullish v = false -> (forall d w, ~ ParamsShape v d w) ->
      exists e, iteration cd ex "client:params" v = inl e
                /\ InvalidDirectiveValue e)
  /\ (forall d w, ParamsShape v d w ->
        iteration cd ex "client:params" v
        = match default_case cd h0 ("client:" ++ d) w with
          | inl e => inl e
          | inr h' =>
              inr (mkExtracted (isPage ex) (Some h') (props ex)
                     (propsWithoutTransitionAttributes ex))
          end
        /\ (includes reserved_client_keys ("client:" ++ d) = false ->
            forall pre post syms p,
              extractDirectives
                (mkProps (pre ++ ("client:params", v) :: post) syms p) cd
              = extractDirectives
                  (mkProps (pre ++ ("client:" ++ d, w) :: post) syms p) cd))
  /\ extractDirectives
       (bag [("client:params", VObj [("directive", VStr "idle")])]) registry
     = inr (mkExtracted false
              (Some (HydrationMetadata.mk "idle" VUndefined (VStr "")
                       (ComponentExport.mk (VStr ""))))
              empty_object empty_object).
Proof.
  intros h0.
  assert (Hit : forall ex',
            iteration cd ex' "client:params" v
            = match client_switch cd
                      (match hydration ex' with
                       | Some h => h
                       | None => initial_hydration
                       end) "client:params" v with
              | inl e => inl e
              | inr h' =>
                  inr (mkExtracted (isPage ex') (Some h') (props ex')
                         (propsWithoutTransitionAttributes ex'))
              end).
  { intros ex'. now rewrite iteration_client. }
  split; [|split; [|split]].
  - intros Hn. rewrite Hit, client_switch_params.
    apply params_case_break in Hn. now rewrite Hn.
  - intros Hn Hshape. rewrite Hit, client_switch_params.
    destruct (params_case v) as [e|[[key' w]|]] eqn:Hp.
    + exists e. split; [reflexivity|]. now apply params_case_inl in Hp.
    + apply params_case_shape in Hp. destruct Hp as (d & _ & Hs).
      now destruct (Hshape d w).
    + apply params_case_break in Hp. congruence.
  - intros d w Hs.
    assert (Hp : params_case v = inr (Some ("client:" ++ d, w))).
    { apply params_case_shape. now exists d. }
    split.
    + rewrite Hit, client_switch_params, Hp. reflexivity.
    + intros Hres pre post syms p. apply extract_at_position. intros ex'.
      assert (Hd1 : dispatched "client:params" v = Some ("client:" ++ d, w)).
      { unfold dispatched. cbn [startsWith]. now rewrite Hp. }
      assert (Hd2 : dispatched ("client:" ++ d) w = Some ("client:" ++ d, w)).
      { unfold dispatched.
        destruct (includes_reserved_false _ Hres) as (_ & _ & _ & _ & H5).
        rewrite Hres, H5. now rewrite startsWith_client. }
      now rewrite (iteration_dispatched cd ex' _ _ _ _ Hd1),
                  (iteration_dispatched cd ex' _ _ _ _ Hd2).
  - reflexivity.
Qed.

Lemma idle_params_shape : ParamsShape idle_params "idle" (VNum 2).
Proof.
  exists [("directive", VStr "idle"); ("value", VNum 2)].
  split; [reflexivity|]. split; [|split; reflexivity].
  repeat constructor; tauto.
Qed.

Lemma params_rewrite_witness :
  ParamsShape idle_params "idle" (VNum 2)
  /\ iteration registry initial_extracted "client:params" idle_params
     = iteration registry initial_extracted "client:idle" (VNum 2)
  /\ extractDirectives (bag [("title", VStr "t"); ("client:params", idle_params)])
       registry
     = extractDirectives (bag [("title", VStr "t"); ("client:idle", VNum 2)])
         registry.
Proof.
  split; [exact idle_params_shape|].
  destruct (params_rewrite registry initial_extracted idle_params)
    as (_ & _ & Hshape & _).
  destruct (Hshape "idle" (VNum 2) idle_params_shape) as [Hit Hex].
  split; [exact Hit|].
  exact (Hex eq_refl [("title", VStr "t")] [] [] ObjectPrototype).
Defined.

(** C2 (as stated) fails twice.  A [client:params] of valid shape whose
    [directive] is [display-name] does not behave as the key
    [client:display-name] would: it enters the canonical case and fails,
    where the key is recognised and dropped.  And a nullish [client:params]
    is not without effect: it creates the hydration record. *)
Lemma params_rewrite_counterexample :
  let v := VObj [("directive", VStr "display-name")] in
  ParamsShape v "display-name" VUndefined
  /\ extractDirectives (bag [("client:params", v)]) registry
     <> extractDirectives (bag [("client:display-name", VUndefined)]) registry
  /\ extractDirectives (bag [("client:params", VNull)]) registry
     <> extractDirectives (bag []) registry.
Proof.
  simpl. split; [|split].
  - exists [("directive", VStr "display-name")].
    split; [reflexivity|]. split; [|split; reflexivity].
    repeat constructor.
  - intros H. vm_compute in H. discriminate H.
  - intros H. vm_compute in H. discriminate H.
Qed.

(** ** The canonical case *)

Lemma split_nonempty (sep : ascii) (s : string) : split sep s <> [].
Proof.
  destruct s as [|c s]; simpl; [discriminate|].
  destruct (Ascii.eqb c sep); [discriminate|].
  destruct (split sep s); discriminate.
Qed.

(** The name derived from a [client:] key is the part of its suffix before
    the first colon. *)
Lemma directive_name_client (suffix : string) :
  directive_name ("client:" ++ suffix) = Some (hd "" (split colon suffix)).
Proof.
  unfold directive_name.
  pose proof (split_nonempty colon suffix) as Hne.
  cbn. destruct (split colon suffix) as [|seg segs]; [contradiction|].
  reflexivity.
Qed.

(** C4, on the code.  For the key [client:load:now] the record names [load],
    the part of the suffix before its first colon, and not the suffix
    [load:now]; the name of a [client:] key is always that first part. *)
Theorem canonical_name_first_segment :
  extractDirectives (bag [("client:load:now", VStr "x")]) registry
  = inr (mkExtracted false
           (Some (HydrationMetadata.mk "load" (VStr "x") (VStr "")
                    (ComponentExport.mk (VStr ""))))
           empty_object empty_object)
  /\ forall suffix,
       directive_name ("client:" ++ suffix) = Some (hd "" (split colon suffix)).
Proof.
  split; [reflexivity|exact directive_name_client].
Qed.

(** ** The list of supported directives in the error message *)

Lemma string_app_assoc (a b c : string) : (a ++ b) ++ c = a ++ (b ++ c).
Proof. induction a as [|ch a IH]; simpl; [reflexivity|now rewrite IH]. Qed.

Lemma string_app_nil_r (a : string) : a ++ "" = a.
Proof. induction a as [|ch a IH]; simpl; [reflexivity|now rewrite IH]. Qed.

(** [join] writes every part, in order, with the separator between two
    neighbours and nowhere else. *)
Lemma join_split (sep x : string) (l1 l2 : list string) :
  join sep (l1 ++ x :: l2)%list
  = join sep l1 ++ separator_beside sep l1 ++ x
    ++ separator_beside sep l2 ++ join sep l2.
Proof.
  induction l1 as [|y l1 IH].
  - destruct l2; simpl; [now rewrite string_app_nil_r|reflexivity].
  - destruct l1 as [|z l1].
    + simpl in *. now rewrite IH.
    + change (join sep ((y :: z :: l1) ++ x :: l2))
        with (y ++ sep ++ join sep ((z :: l1) ++ x :: l2)).
      rewrite IH.
      change (join sep (y :: z :: l1)) with (y ++ sep ++ join sep (z :: l1)).
      now rewrite !string_app_assoc.
Qed.

(** The listing names every registered directive as [client:<name>], in the
    order of the registry, with a comma and a space between neighbours. *)
Lemma hydrationMethods_split (cd1 cd2 : ClientDirectives) (d entry : string) :
  hydrationMethods (cd1 ++ (d, entry) :: cd2)%list
  = hydrationMethods cd1 ++ separator_beside ", " cd1 ++ ("client:" ++ d)
    ++ separator_beside ", " cd2 ++ hydrationMethods cd2.
Proof.
  unfold hydrationMethods, Map_keys. rewrite !map_app. cbn [map fst].
  rewrite join_split. now destruct cd1, cd2.
Qed.

(** C6.  When the entries before a key are processed without failure and the
    key is dispatched to the canonical case, directly or through the
    [client:params] rewrite, with a name that is not registered, extraction
    fails at that key with the [UnknownDirective] error, whatever entries
    follow.  Its message names the offending key and then lists the
    registered names: each name of the registry stands in the message as
    [client:<name>], in the order of the registry, with a comma and a space
    between two neighbours and nothing before the first or after the last;
    for the registry of [load] and [idle] the listing is
    [client:load, client:idle]. *)
Theorem extract_unknown_directive (cd : ClientDirectives)
    (pre post : list (string * JsValue)) (syms : list (Symbol * JsValue))
    (p : Prototype) (ex : ExtractedProps)
    (key key' : string) (value value' : JsValue) (name : string)
    (JSON_stringify : JsValue -> string) :
  entries_loop cd pre initial_extracted = inr ex ->
  dispatched key value = Some (key', value') ->
  directive_name key' = Some name ->
  Map_has cd name = false ->
  let e := Error_ (InvalidHydrationDirective key' (hydrationMethods cd)) in
  extractDirectives (mkProps (pre ++ (key, value) :: post) syms p) cd = inl e
  /\ UnknownDirective e
  /\ message_text JSON_stringify
       (InvalidHydrationDirective key' (hydrationMethods cd))
     = "Error: invalid hydration directive " ++ dquote ++ key' ++ dquote
       ++ ". Supported hydration methods: "
       ++ join ", " (map (fun d => "client:" ++ d) (Map_keys cd))
  /\ hydrationMethods registry = "client:load, client:idle"
  /\ (forall cd1 d entry cd2,
        cd = (cd1 ++ (d, entry) :: cd2)%list ->
        message_text JSON_stringify
          (InvalidHydrationDirective key' (hydrationMethods cd))
        = "Error: invalid hydration directive " ++ dquote ++ key' ++ dquote
          ++ ". Supported hydration methods: "
          ++ hydrationMethods cd1 ++ separator_beside ", " cd1
          ++ ("client:" ++ d)
          ++ separator_beside ", " cd2 ++ hydrationMethods cd2)
  /\ (forall d, In d (Map_keys cd) ->
        exists before after,
          message_text JSON_stringify
            (InvalidHydrationDirective key' (hydrationMethods cd))
          = "Error: invalid hydration directive " ++ dquote ++ key' ++ dquote
            ++ ". Supported hydration methods: "
            ++ before ++ ("client:" ++ d) ++ after)
  /\ (cd = [] ->
      message_text JSON_stringify
        (InvalidHydrationDirective key' (hydrationMethods cd))
      = "Error: invalid hydration directive " ++ dquote ++ key' ++ dquote
        ++ ". Supported hydration methods: ").
Proof.
  intros Hpre Hd Hname Hhas e.
  assert (Hsplit : forall cd1 d entry cd2,
            cd = (cd1 ++ (d, entry) :: cd2)%list ->
            message_text JSON_stringify
              (InvalidHydrationDirective key' (hydrationMethods cd))
            = "Error: invalid hydration directive " ++ dquote ++ key' ++ dquote
              ++ ". Supported hydration methods: "
              ++ hydrationMethods cd1 ++ separator_beside ", " cd1
              ++ ("client:" ++ d)
              ++ separator_beside ", " cd2 ++ hydrationMethods cd2).
  { intros cd1 d entry cd2 ->. cbn [message_text].
    now rewrite hydrationMethods_split. }
  split; [|split; [exact I|split; [reflexivity|split; [reflexivity|]]]].
  - unfold extractDirectives, Object_entries. simpl.
    rewrite entries_loop_app, Hpre. simpl.
    rewrite (iteration_dispatched cd ex _ _ _ _ Hd), default_case_spec.
    now rewrite Hname, Hhas.
  - split; [exact Hsplit|]. split.
    + intros d Hin. unfold Map_keys in Hin. apply in_map_iff in Hin.
      destruct Hin as ([d' entry] & Hfst & Hin). simpl in Hfst. subst d'.
      apply in_split in Hin. destruct Hin as (cd1 & cd2 & Hcd).
      exists (hydrationMethods cd1 ++ separator_beside ", " cd1),
             (separator_beside ", " cd2 ++ hydrationMethods cd2).
      rewrite (Hsplit cd1 d entry cd2 Hcd).
      now rewrite (string_app_assoc (hydrationMethods cd1)).
    + intros ->. reflexivity.
Qed.

Lemma extract_unknown_directive_witness :
  extractDirectives
    (bag [("title", VStr "t"); ("client:weird", VBool true);
          ("client:load", VStr "")]) registry
  = inl (Error_ (InvalidHydrationDirective "client:weird"
                   "client:load, client:idle"))
  /\ exists before after,
       message_text (fun _ => "")
         (InvalidHydrationDirective "client:weird" (hydrationMethods registry))
       = "Error: invalid hydration directive " ++ dquote ++ "client:weird"
         ++ dquote ++ ". Supported hydration methods: "
         ++ before ++ ("client:" ++ "idle") ++ after.
Proof.
  destruct (extract_unknown_directive registry
              [("title", VStr "t")] [("client:load", VStr "")] []
              ObjectPrototype
              (mkExtracted false None (bag [("title", VStr "t")])
                 (bag [("title", VStr "t")]))
              "client:weird" "client:weird" (VBool true) (VBool true)
              "weird" (fun _ => "") eq_refl eq_refl eq_refl eq_refl)
    as (Hfail & _ & _ & _ & _ & Hoccurs & _).
  split; [exact Hfail|].
  apply Hoccurs. simpl. tauto.
Defined.

Lemma iteration_media (cd : ClientDirectives) (ex : ExtractedProps)
    (key key' : string) (value arg : JsValue) :
  dispatched key value = Some (key', arg) ->
  directive_name key' = Some "media" ->
  Map_has cd "media" = true ->
  let h0 := match hydration ex with Some h => h | None => initial_hydration end in
  iteration cd ex key value
  = if negb (String.eqb (typeof arg) "string")
    then inl (AstroError MissingMediaQueryDirective)
    else inr (mkExtracted (isPage ex)
                (Some (HydrationMetadata.mk "media" arg
                         (HydrationMetadata.componentUrl h0)
                         (HydrationMetadata.componentExport h0)))
                (props ex) (propsWithoutTransitionAttributes ex)).
Proof.
  intros Hd Hname Hhas h0.
  rewrite (iteration_dispatched cd ex _ _ _ _ Hd), default_case_spec.
  rewrite Hname, Hhas. cbn [negb]. rewrite String.eqb_refl. cbn [andb].
  now destruct (negb (String.eqb (typeof arg) "string")).
Qed.

(** C7.  For an entry dispatched to the canonical case under the name
    [media], with [media] registered: the turn fails with
    [MissingMediaQuery] exactly when the argument is not a string; with a
    string argument, the empty string included, the turn succeeds and
    records the name and the argument.  Accordingly extraction fails at that
    key when the argument is not a string, and succeeds when it is a string
    and the key is the last one. *)
Theorem extract_media_directive (cd : ClientDirectives) (ex : ExtractedProps)
    (key key' : string) (value arg : JsValue) :
  dispatched key value = Some (key', arg) ->
  directive_name key' = Some "media" ->
  Map_has cd "media" = true ->
  let h0 := match hydration ex with Some h => h | None => initial_hydration end in
  let ex' := mkExtracted (isPage ex)
               (Some (HydrationMetadata.mk "media" arg
                        (HydrationMetadata.componentUrl h0)
                        (HydrationMetadata.componentExport h0)))
               (props ex) (propsWithoutTransitionAttributes ex) in
  ((exists e, iteration cd ex key value = inl e /\ MissingMediaQuery e)
   <-> typeof arg <> "string")
  /\ (typeof arg = "string" -> iteration cd ex key value = inr ex')
  /\ (iteration cd ex "client:media" (VStr "") =
      inr (mkExtracted (isPage ex)
             (Some (HydrationMetadata.mk "media" (VStr "")
                      (HydrationMetadata.componentUrl h0)
                      (HydrationMetadata.componentExport h0)))
             (props ex) (propsWithoutTransitionAttributes ex)))
  /\ (forall pre post syms p,
        entries_loop cd pre initial_extracted = inr ex ->
        (typeof arg <> "string" ->
         extractDirectives (mkProps (pre ++ (key, value) :: post) syms p) cd
         = inl (AstroError MissingMediaQueryDirective))
        /\ (typeof arg = "string" ->
            exists r,
              extractDirectives (mkProps (pre ++ [(key, value)]) syms p) cd
              = inr r
              /\ hydration r = hydration ex')).
Proof.
  intros Hd Hname Hhas h0 ex'.
  assert (Hit : iteration cd ex key value
                = if negb (String.eqb (typeof arg) "string")
                  then inl (AstroError MissingMediaQueryDirective)
                  else inr ex').
  { exact (iteration_media cd ex _ _ _ _ Hd Hname Hhas). }
  split; [|split; [|split]].
  - rewrite Hit. destruct (String.eqb_spec (typeof arg) "string") as [Hs|Hs];
      simpl; split.
    + intros (e & Habs & _). discriminate.
    + intros Hn. contradiction.
    + intros _. exact Hs.
    + intros _. eexists. split; reflexivity.
  - intros Hs. rewrite Hit, Hs. reflexivity.
  - exact (iteration_media cd ex "client:media" "client:media" (VStr "")
             (VStr "") eq_refl eq_refl Hhas).
  - intros pre post syms p Hpre. split.
    + intros Hs. unfold extractDirectives, Object_entries. simpl.
      rewrite entries_loop_app, Hpre. simpl. rewrite Hit.
      apply String.eqb_neq in Hs. now rewrite Hs.
    + intros Hs. unfold extractDirectives, Object_entries. simpl.
      rewrite entries_loop_app, Hpre. simpl. rewrite Hit, Hs. simpl.
      eexists. split; [reflexivity|].
      pose proof (symbol_loop_fields (mkProps (pre ++ [(key, value)]) syms p)
                    (map fst syms) ex') as Hf.
      simpl in Hf. destruct Hf as (_ & Hh & _). exact Hh.
Qed.

Lemma extract_media_directive_witness :
  ((exists e, iteration media_registry initial_extracted "client:media" (VStr "")
              = inl e /\ MissingMediaQuery e)
   <-> typeof (VStr "") <> "string")
  /\ ((exists e, iteration media_registry initial_extracted "client:params"
                   (VObj [("directive", VStr "media")])
                 = inl e /\ MissingMediaQuery e)
      <-> typeof VUndefined <> "string").
Proof.
  split.
  - exact (proj1 (extract_media_directive media_registry initial_extracted
                    "client:media" "client:media" (VStr "") (VStr "")
                    eq_refl eq_refl eq_refl)).
  - exact (proj1 (extract_media_directive media_registry initial_extracted
                    "client:params" "client:media"
                    (VObj [("directive", VStr "media")]) VUndefined
                    eq_refl eq_refl eq_refl)).
Defined.

(* ================================================================== *)
(** ** Properties of [generateHydrateScript]                            *)
(* ================================================================== *)

Lemma has_own_set_island_prop (island : SSRElement.t) (k k' : string)
    (v : JsValue) :
  k' <> PROTO ->
  has_own (SSRElement.props (set_island_prop island k v)) k'
  = String.eqb k' k || has_own (SSRElement.props island) k'.
Proof. intros Hk. simpl. now apply has_own_obj_set. Qed.

(** The extra attributes add their own keys to the island and no other. *)
Lemma has_own_attrs_loop (escape : string -> string)
    (attrs : list (string * string)) (island : SSRElement.t) (k' : string) :
  k' <> PROTO ->
  has_own
    (SSRElement.props
       (fold_left
          (fun island kv => set_island_prop island (fst kv) (VStr (escape (snd kv))))
          attrs island)) k'
  = existsb (fun kv => String.eqb (fst kv) k') attrs
    || has_own (SSRElement.props island) k'.
Proof.
  intros Hk. revert island.
  induction attrs as [|[k v] attrs IH]; intros island; simpl; [reflexivity|].
  rewrite IH. cbn [fst snd]. rewrite has_own_set_island_prop by assumption.
  rewrite (String.eqb_sym k' k).
  destruct (String.eqb k k'), (existsb _ attrs); reflexivity.
Qed.

(** The last loop adds transition keys only. *)
Lemma has_own_transition_loop (props : Props) (island : SSRElement.t)
    (k' : string) :
  nontransition k' = true ->
  k' <> PROTO ->
  has_own
    (SSRElement.props
       (fold_left
          (fun island name =>
             if truthy (obj_get props name)
             then set_island_prop island name (obj_get props name)
             else island)
          transitionDirectivesToCopyOnIsland island)) k'
  = has_own (SSRElement.props island) k'.
Proof.
  intros Hnt Hk. unfold nontransition, includes in Hnt.
  unfold transitionDirectivesToCopyOnIsland in *. cbn [existsb] in Hnt.
  apply negb_true_iff in Hnt.
  apply orb_false_elim in Hnt. destruct Hnt as [H1 Hnt].
  apply orb_false_elim in Hnt. destruct Hnt as [H2 _].
  cbn [fold_left].
  destruct (truthy (obj_get props "data-astro-transition-scope"));
    destruct (truthy (obj_get props "data-astro-transition-persist"));
    rewrite ?has_own_set_island_prop by assumption;
    rewrite ?H1, ?H2; reflexivity.
Qed.

(** C9.  With a falsy [componentExport.value], the empty string in
    particular, the call fails with the [NoMatchingImport] error, the
    [MissingComponentExport] of the specification, and the log of
    [result.resolve] calls is as it was: no resolution was asked for. *)
Theorem generate_missing_export (imports : Imports)
    (scriptOptions : HydrateScriptOptions.t)
    (metadata : AstroComponentMetadata.t) (log : list string) :
  truthy (ComponentExport.value
            (AstroComponentMetadata.componentExport metadata)) = false ->
  generateHydrateScript imports scriptOptions metadata log
  = (inl (AstroError
            (NoMatchingImport (AstroComponentMetadata.displayName metadata))),
     log)
  /\ MissingComponentExport
       (AstroError
          (NoMatchingImport (AstroComponentMetadata.displayName metadata))).
Proof.
  intros H. unfold generateHydrateScript. rewrite H. split; [reflexivity|exact I].
Qed.

Lemma generate_missing_export_witness :
  generateHydrateScript sample_imports (sample_options None)
    (sample_metadata "") []
  = (inl (AstroError (NoMatchingImport "Counter")), []).
Proof.
  exact (proj1 (generate_missing_export sample_imports (sample_options None)
                  (sample_metadata "") [] eq_refl)).
Defined.

(** C8 (as amended).  With a renderer without client entry point, a truthy
    [componentExport.value], and [decodeURI] and the two resolutions
    succeeding, the call returns an island after exactly those two
    resolutions; the island has the attributes [ssr], [client], [uid],
    [component-url] and [opts], and it has a [props] or a [renderer-url]
    attribute only when the extra attributes [attrs] name one. *)
Theorem generate_server_only (imports : Imports)
    (scriptOptions : HydrateScriptOptions.t)
    (metadata : AstroComponentMetadata.t) (log : list string)
    (decoded url beforeHydrationUrl : string) :
  truthy_string (SSRLoadedRenderer.clientEntrypoint
                   (HydrateScriptOptions.renderer scriptOptions)) = false ->
  truthy (ComponentExport.value
            (AstroComponentMetadata.componentExport metadata)) = true ->
  decodeURI imports (AstroComponentMetadata.componentUrl metadata) = inr decoded ->
  SSRResult.resolve (HydrateScriptOptions.result scriptOptions) decoded = inr url ->
  SSRResult.resolve (HydrateScriptOptions.result scriptOptions)
    "astro:scripts/before-hydration.js" = inr beforeHydrationUrl ->
  exists island,
    generateHydrateScript imports scriptOptions metadata log
    = (inr island, (log ++ [decoded; "astro:scripts/before-hydration.js"])%list)
    /\ has_own (SSRElement.props island) "ssr" = true
    /\ has_own (SSRElement.props island) "client" = true
    /\ has_own (SSRElement.props island) "uid" = true
    /\ has_own (SSRElement.props island) "component-url" = true
    /\ has_own (SSRElement.props island) "opts" = true
    /\ has_own (SSRElement.props island) "props"
       = attrs_has (HydrateScriptOptions.attrs scriptOptions) "props"
    /\ has_own (SSRElement.props island) "renderer-url"
       = attrs_has (HydrateScriptOptions.attrs scriptOptions) "renderer-url".
Proof.
  intros Hentry Hexport Hdecode Hurl Hbefore.
  unfold generateHydrateScript. rewrite Hexport. cbn [negb].
  set (island0 :=
         match HydrateScriptOptions.attrs scriptOptions with
         | Some attrs => fold_left _ attrs _
         | None => _
         end).
  assert (Hisland0 : forall k', k' <> PROTO ->
            has_own (SSRElement.props island0) k'
            = attrs_has (HydrateScriptOptions.attrs scriptOptions) k'
              || String.eqb k' "uid").
  { intros k' Hk. unfold island0, attrs_has.
    destruct (HydrateScriptOptions.attrs scriptOptions) as [attrs|].
    - rewrite has_own_attrs_loop by assumption. f_equal.
      unfold has_own, assoc_has. simpl.
      now destruct (String.eqb k' "uid").
    - unfold has_own, assoc_has. simpl. now destruct (String.eqb k' "uid"). }
  clearbody island0.
  unfold bind, lift, await_resolve, ret. rewrite Hdecode, Hurl.
  assert (Hrenderer :
            match SSRLoadedRenderer.clientEntrypoint
                    (HydrateScriptOptions.renderer scriptOptions)
            with
            | Some entry => negb (String.eqb entry "")
            | None => false
            end = false) by exact Hentry.
  destruct (SSRLoadedRenderer.clientEntrypoint
              (HydrateScriptOptions.renderer scriptOptions)) as [entry|];
    [rewrite Hrenderer|]; rewrite Hbefore;
    (eexists; split;
     [rewrite <- app_assoc; reflexivity|
      repeat split;
      rewrite has_own_transition_loop by (reflexivity || discriminate);
      destruct (negb (Nat.eqb (String.length beforeHydrationUrl) 0));
      rewrite ?has_own_set_island_prop by discriminate;
      rewrite Hisland0 by discriminate;
      cbn; rewrite ?orb_true_r, ?orb_false_r; reflexivity]).
Qed.

Lemma generate_server_only_witness :
  exists island,
    generateHydrateScript sample_imports
      (sample_options (Some [("data-solid-render-id", "s1")]))
      (sample_metadata "default") []
    = (inr island, ["/src/Counter.jsx"; "astro:scripts/before-hydration.js"])
    /\ has_own (SSRElement.props island) "opts" = true
    /\ has_own (SSRElement.props island) "props" = false
    /\ has_own (SSRElement.props island) "renderer-url" = false.
Proof.
  destruct (generate_server_only sample_imports
              (sample_options (Some [("data-solid-render-id", "s1")]))
              (sample_metadata "default") []
              "/src/Counter.jsx" "/resolved//src/Counter.jsx"
              "/resolved/astro:scripts/before-hydration.js"
              eq_refl eq_refl eq_refl eq_refl eq_refl)
    as (island & Hrun & _ & _ & _ & _ & Hopts & Hprops & Hurl).
  exists island. repeat split; assumption.
Defined.

(** C8 (as stated) fails: with an extra attribute called [props], the island
    built for a renderer without client entry point has a [props]
    attribute. *)
Lemma generate_server_only_counterexample :
  let scriptOptions := sample_options (Some [("props", "x")]) in
  let metadata := sample_metadata "default" in
  SSRLoadedRenderer.clientEntrypoint
    (HydrateScriptOptions.renderer scriptOptions) = None
  /\ ComponentExport.value (AstroComponentMetadata.componentExport metadata)
     = VStr "default"
  /\ exists island log,
       generateHydrateScript sample_imports scriptOptions metadata [] =
       (inr island, log)
       /\ has_own (SSRElement.props island) "props" = true.
Proof.
  intros scriptOptions metadata. split; [reflexivity|]. split; [reflexivity|].
  match goal with
  | |- exists island log, ?run = _ /\ _ =>
      let r := eval vm_compute in run in change run with r
  end.
  eexists. eexists. split; reflexivity.
Qed.


(* ================================================================== *)
(** ** Further properties of [extractDirectives]                        *)
(* ================================================================== *)

(** The page flag is set exactly when [server:root] is a key of the bag. *)
Theorem extract_isPage (inputProps : Props) (cd : ClientDirectives)
    (ex : ExtractedProps) :
  extractDirectives inputProps cd = inr ex ->
  isPage ex
  = existsb (fun kv => String.eqb (fst kv) "server:root") (entries inputProps).
Proof.
  intros Hex. apply extractDirectives_inr in Hex.
  destruct Hex as (mid & Hloop & ->).
  pose proof (symbol_loop_fields inputProps (map fst (symbols inputProps)) mid)
    as Hf. simpl in Hf. destruct Hf as (-> & _).
  rewrite (entries_loop_isPage cd _ _ _ Hloop). apply orb_false_r.
Qed.

Lemma extract_isPage_witness :
  isPage island_extracted = true
  /\ exists ex, extractDirectives plain_bag registry = inr ex /\ isPage ex = false.
Proof.
  split.
  - exact (extract_isPage island_bag registry island_extracted eq_refl).
  - eexists. split; [reflexivity|].
    exact (extract_isPage plain_bag registry _ eq_refl).
Defined.

Lemma iteration_hydration_None (cd : ClientDirectives) (ex ex' : ExtractedProps)
    (key : string) (value : JsValue) :
  iteration cd ex key value = inr ex' ->
  (hydration ex' = None
   <-> hydration ex = None /\ startsWith key "client:" = false).
Proof.
  intros Hit. destruct (startsWith key "client:") eqn:Hc.
  - rewrite (iteration_client cd ex key value Hc) in Hit.
    destruct (client_switch cd _ key value); [discriminate|].
    injection Hit as <-. simpl. split; [discriminate|intros [_ H]; discriminate].
  - apply iteration_inv in Hit.
    destruct Hit as [_ [(Hc' & _)|(_ & -> & _)]]; [congruence|tauto].
Qed.

Lemma entries_loop_hydration_None (cd : ClientDirectives)
    (es : list (string * JsValue)) (ex ex' : ExtractedProps) :
  entries_loop cd es ex = inr ex' ->
  (hydration ex' = None
   <-> hydration ex = None
       /\ forall k v, In (k, v) es -> startsWith k "client:" = false).
Proof.
  revert ex. induction es as [|[k v] es IH]; intros ex; simpl.
  - intros [= <-]. split; [intros H; split; [exact H|intros ? ? []]|tauto].
  - destruct (iteration cd ex k v) as [e|ex1] eqn:Hit; [discriminate|].
    intros Hloop. rewrite (IH ex1 Hloop), (iteration_hydration_None _ _ _ _ _ Hit).
    split.
    + intros [[Hh Hc] Hes]. split; [exact Hh|].
      intros k' v' [[= <- <-]|Hin]; [exact Hc|now apply (Hes k' v')].
    + intros [Hh Hes]. split; [split; [exact Hh|]|].
      * apply (Hes k v). now left.
      * intros k' v' Hin. apply (Hes k' v'). now right.
Qed.

(** After a successful extraction there is a hydration record exactly when
    the bag has a key that starts with [client:], whichever key it is. *)
Theorem extract_hydration_None (inputProps : Props) (cd : ClientDirectives)
    (ex : ExtractedProps) :
  extractDirectives inputProps cd = inr ex ->
  (hydration ex = None
   <-> forall k v, In (k, v) (entries inputProps) -> startsWith k "client:" = false).
Proof.
  intros Hex. apply extractDirectives_inr in Hex.
  destruct Hex as (mid & Hloop & ->).
  pose proof (symbol_loop_fields inputProps (map fst (symbols inputProps)) mid)
    as Hf. simpl in Hf. destruct Hf as (_ & -> & _).
  rewrite (entries_loop_hydration_None cd _ _ _ Hloop). simpl. tauto.
Qed.

Lemma extract_hydration_None_witness :
  hydration island_extracted <> None.
Proof.
  intros Hnone.
  pose proof (proj1 (extract_hydration_None island_bag registry island_extracted
                       eq_refl) Hnone "client:load" (VStr "")) as H.
  simpl in H. discriminate H. tauto.
Defined.

(** An own key after a write is the written key or an own key from before. *)
Lemma has_own_obj_set_inv (k k' : string) (v : JsValue) (o : Props) :
  has_own (obj_set k v o) k' = true -> k' = k \/ has_own o k' = true.
Proof.
  unfold has_own, obj_set.
  destruct (assoc_has String.eqb k (entries o)); simpl.
  - rewrite (assoc_has_set String.eqb string_eqb_eq).
    destruct (String.eqb_spec k' k); [now left|now right].
  - destruct (String.eqb k PROTO && proto_accessor_reachable (proto o)).
    + rewrite entries_set_prototype_of. now right.
    + simpl. rewrite (assoc_has_set String.eqb string_eqb_eq).
      destruct (String.eqb_spec k' k); [now left|now right].
Qed.

Lemma entries_loop_own_keys (cd : ClientDirectives)
    (es : list (string * JsValue)) (ex ex' : ExtractedProps) (k : string) :
  entries_loop cd es ex = inr ex' ->
  has_own (props ex') k = true ->
  has_own (props ex) k = true
  \/ (startsWith k "client:" = false /\ In k (map fst es)).
Proof.
  revert ex. induction es as [|[k0 v0] es IH]; intros ex; simpl.
  - intros [= <-]. now left.
  - destruct (iteration cd ex k0 v0) as [e|ex1] eqn:Hit; [discriminate|].
    intros Hloop Hown. destruct (IH ex1 Hloop Hown) as [H1|[Hc Hin]].
    + apply iteration_inv in Hit.
      destruct Hit as [_ [(_ & Hp & _)|(Hc & _ & Hp & _)]]; rewrite Hp in H1.
      * now left.
      * apply has_own_obj_set_inv in H1. destruct H1 as [->|H1]; [|now left].
        right. split; [exact Hc|now left].
    + right. split; [exact Hc|now right].
Qed.

(** The own string keys of both output bags are keys of the input that do
    not start with [client:]: directive keys never reach the component, and
    no key is made up. *)
Theorem extract_own_keys (inputProps : Props) (cd : ClientDirectives)
    (ex : ExtractedProps) (k : string) :
  extractDirectives inputProps cd = inr ex ->
  (has_own (props ex) k = true ->
   startsWith k "client:" = false /\ In k (map fst (entries inputProps)))
  /\ (has_own (propsWithoutTransitionAttributes ex) k = true ->
      startsWith k "client:" = false
      /\ nontransition k = true
      /\ In k (map fst (entries inputProps))).
Proof.
  intros Hex.
  pose proof (extract_without_transition _ _ _ Hex) as Hwt.
  apply extractDirectives_inr in Hex. destruct Hex as (mid & Hloop & Heq).
  pose proof (symbol_loop_fields inputProps (map fst (symbols inputProps)) mid)
    as Hf. simpl in Hf. rewrite <- Heq in Hf. destruct Hf as (_ & _ & He & _).
  assert (Hprops : has_own (props ex) k = true ->
            startsWith k "client:" = false /\ In k (map fst (entries inputProps))).
  { unfold has_own. rewrite He. intros Hown.
    destruct (entries_loop_own_keys cd _ _ _ k Hloop Hown) as [H|H];
      [discriminate H|exact H]. }
  split; [exact Hprops|].
  rewrite Hwt. unfold has_own, assoc_has. simpl.
  rewrite (assoc_get_filter_keys String.eqb string_eqb_eq nontransition).
  destruct (nontransition k); [|discriminate].
  intros Hown. destruct (Hprops Hown) as [Hc Hin]. now repeat split.
Qed.

Lemma extract_own_keys_witness :
  has_own (props island_extracted) "client:load" = false
  /\ has_own (props island_extracted) "title" = true.
Proof.
  split; [|reflexivity].
  destruct (has_own (props island_extracted) "client:load") eqn:Hown;
    [|reflexivity].
  destruct (proj1 (extract_own_keys island_bag registry island_extracted
                     "client:load" eq_refl) Hown) as [Hc _].
  discriminate Hc.
Defined.

(** ** Failures *)

Lemma default_case_inl (cd : ClientDirectives) (h : HydrationMetadata.t)
    (key : string) (value : JsValue) (e : Exception) :
  default_case cd h key value = inl e ->
  (e = Error_ (InvalidHydrationDirective key (hydrationMethods cd))
   /\ forall name, directive_name key = Some name -> Map_has cd name = false)
  \/ (e = AstroError MissingMediaQueryDirective
      /\ directive_name key = Some "media"
      /\ typeof value <> "string").
Proof.
  rewrite default_case_spec.
  destruct (directive_name key) as [name|].
  - destruct (Map_has cd name) eqn:Hhas; simpl.
    + destruct (String.eqb_spec name "media") as [->|]; simpl; [|discriminate].
      destruct (String.eqb_spec (typeof value) "string"); simpl; [discriminate|].
      intros [= <-]. right. now repeat split.
    + intros [= <-]. left. split; [reflexivity|]. now intros ? [= <-].
  - intros [= <-]. left. split; [reflexivity|discriminate].
Qed.

Lemma client_switch_inl (cd : ClientDirectives) (h : HydrationMetadata.t)
    (key : string) (value : JsValue) (e : Exception) :
  startsWith key "client:" = true ->
  client_switch cd h key value = inl e ->
  (key = "client:params" /\ params_case value = inl e)
  \/ exists key' arg,
       dispatched key value = Some (key', arg)
       /\ default_case cd h key' arg = inl e.
Proof.
  intros Hc Hsw.
  destruct (dispatched key value) as [[key' arg]|] eqn:Hd.
  - right. exists key', arg. split; [reflexivity|].
    destruct (client_switch_dispatched cd h _ _ _ _ Hd) as [_ Heq]. congruence.
  - left. unfold dispatched in Hd. rewrite Hc in Hd.
    destruct (String.eqb_spec key "client:params") as [->|Hne].
    + split; [reflexivity|]. rewrite client_switch_params in Hsw.
      destruct (params_case value) as [e'|[kv|]]; try discriminate.
      congruence.
    + exfalso. unfold client_switch in Hsw.
      unfold includes, reserved_client_keys in Hd. cbn [existsb] in Hd.
      destruct (String.eqb key "client:component-path"); [discriminate|].
      destruct (String.eqb key "client:component-export"); [discriminate|].
      destruct (String.eqb key "client:component-hydration"); [discriminate|].
      destruct (String.eqb key "client:display-name"); [discriminate|].
      apply String.eqb_neq in Hne. rewrite Hne in Hd. discriminate Hd.
Qed.

Lemma entries_loop_inl (cd : ClientDirectives)
    (es : list (string * JsValue)) (ex : ExtractedProps) (e : Exception) :
  entries_loop cd es ex = inl e ->
  exists pre key value post ex0,
    es = (pre ++ (key, value) :: post)%list
    /\ entries_loop cd pre ex = inr ex0
    /\ iteration cd ex0 key value = inl e.
Proof.
  revert ex. induction es as [|[k v] es IH]; intros ex; simpl; [discriminate|].
  destruct (iteration cd ex k v) as [e'|ex1] eqn:Hit.
  - intros [= <-]. now exists [], k, v, es, ex.
  - intros Hloop.
    destruct (IH ex1 Hloop) as (pre & key & value & post & ex0 & -> & Hpre & Hfail).
    exists ((k, v) :: pre), key, value, post, ex0. simpl. now rewrite Hit.
Qed.

(** Extraction fails only at a [client:] key, the first one whose turn
    throws, and only in three ways: an [InvalidDirectiveValue] error at
    [client:params], or, at an entry dispatched to the canonical case, an
    [UnknownDirective] error for a name that is not registered or the
    [MissingMediaQuery] error for [media] with an argument that is not a
    string. *)
Theorem extract_failure (inputProps : Props) (cd : ClientDirectives)
    (e : Exception) :
  extractDirectives inputProps cd = inl e ->
  exists pre key value post ex0,
    entries inputProps = (pre ++ (key, value) :: post)%list
    /\ entries_loop cd pre initial_extracted = inr ex0
    /\ iteration cd ex0 key value = inl e
    /\ startsWith key "client:" = true
    /\ ((key = "client:params" /\ InvalidDirectiveValue e)
        \/ exists key' arg,
             dispatched key value = Some (key', arg)
             /\ ((UnknownDirective e
                  /\ forall name, directive_name key' = Some name ->
                                  Map_has cd name = false)
                 \/ (MissingMediaQuery e
                     /\ directive_name key' = Some "media"
                     /\ typeof arg <> "string"))).
Proof.
  unfold extractDirectives, Object_entries.
  destruct (entries_loop cd (entries inputProps) initial_extracted)
    as [e'|mid] eqn:Hloop; [|discriminate].
  intros [= ->].
  destruct (entries_loop_inl cd _ _ _ Hloop)
    as (pre & key & value & post & ex0 & Hes & Hpre & Hit).
  exists pre, key, value, post, ex0.
  split; [exact Hes|]. split; [exact Hpre|]. split; [exact Hit|].
  destruct (startsWith key "client:") eqn:Hc.
  - split; [reflexivity|].
    rewrite (iteration_client cd ex0 key value Hc) in Hit.
    destruct (client_switch cd _ key value) as [e'|h'] eqn:Hsw; [|discriminate].
    injection Hit as ->.
    destruct (client_switch_inl cd _ _ _ _ Hc Hsw)
      as [[-> Hp]|(key' & arg & Hd & Hdef)].
    + left. split; [reflexivity|now apply params_case_inl in Hp].
    + right. exists key', arg. split; [exact Hd|].
      destruct (default_case_inl cd _ _ _ _ Hdef) as [[-> Hn]|(-> & Hn & Ht)].
      * left. split; [exact I|exact Hn].
      * right. now repeat split.
  - destruct (iteration_other cd ex0 key value Hc) as [ex' Hok]. congruence.
Qed.

Lemma extract_failure_witness :
  exists pre key value post ex0,
    [("title", VStr "t"); ("client:params", VNum 3); ("client:load", VStr "")]
    = (pre ++ (key, value) :: post)%list
    /\ entries_loop registry pre initial_extracted = inr ex0
    /\ iteration registry ex0 key value
       = inl (Error_ (InvalidParamsValue (VNum 3) "number"))
    /\ startsWith key "client:" = true.
Proof.
  destruct (extract_failure
              (bag [("title", VStr "t"); ("client:params", VNum 3);
                    ("client:load", VStr "")])
              registry (Error_ (InvalidParamsValue (VNum 3) "number")) eq_refl)
    as (pre & key & value & post & ex0 & H1 & H2 & H3 & H4 & _).
  exists pre, key, value, post, ex0. now repeat split.
Defined.

(** ** The exact contents of the output bags *)

Lemma assoc_set_fresh {K V : Type} (eqb : K -> K -> bool)
    (eqb_eq : forall a b, eqb a b = true <-> a = b)
    (k : K) (v : V) (l : list (K * V)) :
  ~ In k (map fst l) -> assoc_set eqb k v l = (l ++ [(k, v)])%list.
Proof.
  induction l as [|[k0 v0] l IH]; simpl; intros Hnotin; [reflexivity|].
  destruct (eqb k k0) eqn:E.
  - exfalso. apply Hnotin. left. symmetry. now apply eqb_eq.
  - rewrite IH; [reflexivity|]. intros Hin. apply Hnotin. now right.
Qed.

Lemma filter_not_client_cons (k : string) (v : JsValue)
    (es : list (string * JsValue)) :
  filter not_client ((k, v) :: es)
  = if startsWith k "client:" then filter not_client es
    else (k, v) :: filter not_client es.
Proof.
  cbn [filter]. unfold not_client at 1. cbn [fst].
  now destruct (startsWith k "client:").
Qed.

Lemma entries_loop_exact (cd : ClientDirectives)
    (es : list (string * JsValue)) (ex ex' : ExtractedProps) :
  entries_loop cd es ex = inr ex' ->
  NoDup (map fst (entries (props ex)) ++ map fst es) ->
  ~ In PROTO (map fst es) ->
  entries (props ex') = (entries (props ex) ++ filter not_client es)%list
  /\ proto (props ex') = proto (props ex).
Proof.
  revert ex. induction es as [|[k v] es IH]; intros ex;
    [|rewrite filter_not_client_cons]; cbn [entries_loop map fst].
  - intros [= <-] _ _. simpl. now rewrite app_nil_r.
  - destruct (iteration cd ex k v) as [e|ex1] eqn:Hit; [discriminate|].
    intros Hloop Hnd Hproto.
    assert (Hk : k <> PROTO) by (intros ->; apply Hproto; now left).
    assert (Hrest : ~ In PROTO (map fst es))
      by (intros Hin; apply Hproto; now right).
    pose proof (NoDup_remove_2 _ _ _ Hnd) as Hfresh.
    pose proof (NoDup_remove_1 _ _ _ Hnd) as Hnd'.
    apply iteration_inv in Hit.
    destruct Hit as [_ [(Hc & Hp & _)|(Hc & _ & Hp & _)]].
    + destruct (IH ex1 Hloop) as [He Hpr]; [now rewrite Hp|exact Hrest|].
      rewrite He, Hpr, Hp, Hc. now split.
    + assert (Hnew : entries (props ex1) = (entries (props ex) ++ [(k, v)])%list
                     /\ proto (props ex1) = proto (props ex)).
      { rewrite Hp, obj_set_plain by assumption. simpl. split; [|reflexivity].
        apply (assoc_set_fresh String.eqb string_eqb_eq). intros Hin. apply Hfresh.
        apply in_or_app. now left. }
      destruct Hnew as [Hne Hnp].
      destruct (IH ex1 Hloop) as [He Hpr]; [|exact Hrest|].
      * rewrite Hne, map_app. simpl. rewrite <- app_assoc. exact Hnd.
      * rewrite He, Hpr, Hne, Hnp, Hc. now rewrite <- app_assoc.
Qed.

Lemma symbol_loop_exact (inputProps : Props)
    (done rest : list (Symbol * JsValue)) (ex : ExtractedProps) :
  NoDup (map fst (done ++ rest)) ->
  (forall sym v, In (sym, v) rest -> sym_get inputProps sym = v) ->
  symbols (props ex) = done ->
  symbols (props (fold_left (symbol_iteration inputProps) (map fst rest) ex))
  = (done ++ rest)%list.
Proof.
  revert done ex. induction rest as [|[s v] rest IH]; intros done ex Hnd Hget Hs.
  - simpl. now rewrite app_nil_r.
  - simpl. replace (done ++ (s, v) :: rest)%list
      with ((done ++ [(s, v)]) ++ rest)%list by now rewrite <- app_assoc.
    apply IH.
    + now rewrite <- app_assoc.
    + intros sym w Hin. apply Hget. now right.
    + simpl. rewrite Hs, (Hget s v) by now left.
      rewrite map_app in Hnd. simpl in Hnd.
      apply NoDup_remove_2 in Hnd.
      apply (assoc_set_fresh Nat.eqb nat_eqb_eq).
      intros Hin. apply Hnd. apply in_or_app. now left.
Qed.

Lemma extract_contents (inputProps : Props) (cd : ClientDirectives)
    (ex : ExtractedProps) :
  well_formed inputProps ->
  ~ In PROTO (map fst (entries inputProps)) ->
  extractDirectives inputProps cd = inr ex ->
  entries (props ex) = filter not_client (entries inputProps)
  /\ symbols (props ex) = symbols inputProps
  /\ proto (props ex) = ObjectPrototype.
Proof.
  intros [Hnd Hsym] Hproto Hex.
  apply extractDirectives_inr in Hex. destruct Hex as (mid & Hloop & ->).
  pose proof (symbol_loop_fields inputProps (map fst (symbols inputProps)) mid)
    as Hf. simpl in Hf. destruct Hf as (_ & _ & He & _ & Hp & _).
  destruct (entries_loop_exact cd _ _ _ Hloop Hnd Hproto) as [Hentries Hpr].
  rewrite He, Hp, Hentries, Hpr. split; [reflexivity|]. split; [|reflexivity].
  apply (symbol_loop_exact inputProps [] (symbols inputProps) mid).
  - exact Hsym.
  - intros sym v Hin. unfold sym_get.
    now rewrite (assoc_get_In Nat.eqb nat_eqb_eq sym v _ Hsym Hin).
  - pose proof (entries_loop_exact cd _ _ _ Hloop Hnd Hproto) as _.
    clear -Hloop. revert Hloop. generalize (entries inputProps).
    assert (H : forall es ex ex', entries_loop cd es ex = inr ex' ->
                symbols (props ex') = symbols (props ex)).
    { induction es as [|[k v] es IH]; intros ex ex'; simpl.
      - now intros [= <-].
      - destruct (iteration cd ex k v) as [e|ex1] eqn:Hit; [discriminate|].
        intros Hloop. rewrite (IH _ _ Hloop).
        apply iteration_inv in Hit.
        destruct Hit as [_ [(_ & -> & _)|(_ & _ & -> & _)]];
          [reflexivity|apply symbols_obj_set]. }
    intros es Hloop. now rewrite (H _ _ _ Hloop).
Qed.

(** For a well-formed bag without an own [__proto__] key, [props] is the
    input without its [client:] entries: the remaining string-keyed entries
    in their order, all the symbol-keyed entries in their order, and the
    default prototype; [propsWithoutTransitionAttributes] is the same
    without the transition keys. *)
Theorem extract_exact (inputProps : Props) (cd : ClientDirectives)
    (ex : ExtractedProps) :
  well_formed inputProps ->
  ~ In PROTO (map fst (entries inputProps)) ->
  extractDirectives inputProps cd = inr ex ->
  props ex
  = mkProps (filter not_client (entries inputProps)) (symbols inputProps)
      ObjectPrototype
  /\ propsWithoutTransitionAttributes ex
     = mkProps
         (filter_keys nontransition (filter not_client (entries inputProps)))
         (symbols inputProps) ObjectPrototype.
Proof.
  intros Hwf Hproto Hex.
  destruct (extract_contents _ _ _ Hwf Hproto Hex) as (He & Hs & Hp).
  rewrite (extract_without_transition _ _ _ Hex). unfold without_transition.
  rewrite He, Hs, Hp. split; [|reflexivity].
  destruct (props ex) as [es ss pr]. simpl in *. now subst.
Qed.

Lemma extract_exact_witness :
  props island_extracted
  = mkProps
      [("title", VStr "Hello");
       ("data-astro-transition-scope", VStr "astro-abc");
       ("server:root", VBool true)]
      [(4, VStr "slot")] ObjectPrototype.
Proof.
  refine (proj1 (extract_exact island_bag registry island_extracted
                   island_bag_well_formed _ eq_refl)).
  simpl. intuition discriminate.
Defined.

(** ** An own [__proto__] key *)

Lemma entries_loop_no_proto_key (cd : ClientDirectives)
    (es : list (string * JsValue)) (ex ex' : ExtractedProps) :
  entries_loop cd es ex = inr ex' ->
  ~ In PROTO (map fst es) ->
  has_own (props ex') PROTO = has_own (props ex) PROTO
  /\ proto (props ex') = proto (props ex).
Proof.
  revert ex. induction es as [|[k v] es IH]; intros ex; simpl.
  - now intros [= <-].
  - destruct (iteration cd ex k v) as [e|ex1] eqn:Hit; [discriminate|].
    intros Hloop Hnotin.
    destruct (IH ex1 Hloop) as [-> ->]; [tauto|].
    apply iteration_inv in Hit.
    destruct Hit as [_ [(_ & -> & _)|(_ & _ & -> & _)]]; [now split|].
    assert (Hk : k <> PROTO) by (intros ->; apply Hnotin; now left).
    rewrite obj_set_plain by assumption. split; [|reflexivity].
    unfold has_own, assoc_has. simpl.
    rewrite (assoc_get_set_other String.eqb string_eqb_eq); [reflexivity|].
    congruence.
Qed.

(** An own [__proto__] entry of a well-formed bag never becomes an own
    property of the output bags: the assignment reaches the [__proto__]
    accessor, so an object or [null] value becomes the prototype of both
    bags and any other value is dropped. *)
Theorem extract_proto_key (inputProps : Props) (cd : ClientDirectives)
    (ex : ExtractedProps) :
  well_formed inputProps ->
  extractDirectives inputProps cd = inr ex ->
  has_own (props ex) PROTO = false
  /\ has_own (propsWithoutTransitionAttributes ex) PROTO = false
  /\ proto (props ex)
     = match assoc_get String.eqb PROTO (entries inputProps) with
       | Some (VObj fields) => ValuePrototype (VObj fields)
       | Some (VArr items) => ValuePrototype (VArr items)
       | Some VNull => NullPrototype
       | _ => ObjectPrototype
       end
  /\ proto (propsWithoutTransitionAttributes ex) = proto (props ex).
Proof.
  intros [Hnd _] Hex.
  pose proof (extract_without_transition _ _ _ Hex) as Hwt.
  apply extractDirectives_inr in Hex. destruct Hex as (mid & Hloop & Heq).
  pose proof (symbol_loop_fields inputProps (map fst (symbols inputProps)) mid)
    as Hf. simpl in Hf. rewrite <- Heq in Hf.
  destruct Hf as (_ & _ & He & _ & Hp & _).
  assert (Hmain : forall es ex0 ex1,
            entries_loop cd es ex0 = inr ex1 ->
            NoDup (map fst es) ->
            has_own (props ex0) PROTO = false ->
            proto (props ex0) = ObjectPrototype ->
            has_own (props ex1) PROTO = false
            /\ proto (props ex1)
               = match assoc_get String.eqb PROTO es with
                 | Some (VObj fields) => ValuePrototype (VObj fields)
                 | Some (VArr items) => ValuePrototype (VArr items)
                 | Some VNull => NullPrototype
                 | _ => ObjectPrototype
                 end).
  { induction es as [|[k v] es IH]; intros ex0 ex1;
      cbn [entries_loop map fst assoc_get].
    - intros [= <-] _ H1 H2. now split.
    - destruct (iteration cd ex0 k v) as [e|ex'] eqn:Hit; [discriminate|].
      intros Hl Hnd' H1 H2. inversion Hnd' as [|? ? Hnotin Hnd'']; subst.
      apply iteration_inv in Hit.
      destruct (String.eqb_spec PROTO k) as [<-|Hne].
      + destruct (entries_loop_no_proto_key cd _ _ _ Hl Hnotin) as [-> ->].
        destruct Hit as [_ [(Hc & _)|(_ & _ & -> & _)]]; [discriminate Hc|].
        unfold obj_set.
        change (assoc_has String.eqb PROTO (entries (props ex0)))
          with (has_own (props ex0) PROTO).
        rewrite H1, String.eqb_refl, H2.
        cbn [proto_accessor_reachable andb].
        split.
        * unfold has_own in *. now rewrite entries_set_prototype_of.
        * destruct v; simpl; try exact H2; reflexivity.
      + apply (IH ex' ex1 Hl Hnd'').
        * destruct Hit as [_ [(_ & -> & _)|(_ & _ & -> & _)]]; [exact H1|].
          rewrite obj_set_plain by congruence.
          unfold has_own, assoc_has in *. simpl.
          now rewrite (assoc_get_set_other String.eqb string_eqb_eq) by exact Hne.
        * destruct Hit as [_ [(_ & -> & _)|(_ & _ & -> & _)]]; [exact H2|].
          now rewrite obj_set_plain by congruence. }
  destruct (Hmain _ _ _ Hloop Hnd eq_refl eq_refl) as [Hown Hproto].
  assert (Hown' : has_own (props ex) PROTO = false)
    by (unfold has_own in *; now rewrite He).
  split; [exact Hown'|]. split; [|split].
  - rewrite Hwt. unfold has_own, assoc_has in *. simpl.
    rewrite (assoc_get_filter_keys String.eqb string_eqb_eq nontransition).
    now destruct (nontransition PROTO).
  - now rewrite Hp.
  - now rewrite Hwt.
Qed.

Lemma extract_proto_key_witness :
  exists ex,
    extractDirectives proto_bag registry = inr ex
    /\ has_own (props ex) PROTO = false
    /\ proto (props ex) = ValuePrototype (VObj [("polluted", VBool true)]).
Proof.
  eexists. split; [reflexivity|].
  assert (Hwf : well_formed proto_bag) by (split; simpl; solve_NoDup).
  destruct (extract_proto_key proto_bag registry _ Hwf eq_refl)
    as (H1 & _ & H2 & _).
  split; [exact H1|exact H2].
Defined.

(** ** The hydration record *)

Lemma client_switch_inr_fields (cd : ClientDirectives)
    (h h' : HydrationMetadata.t) (key : string) (value : JsValue) :
  client_switch cd h key value = inr h' ->
  HydrationMetadata.componentUrl h'
  = (if String.eqb key "client:component-path" then value
     else HydrationMetadata.componentUrl h)
  /\ ComponentExport.value (HydrationMetadata.componentExport h')
     = (if String.eqb key "client:component-export" then value
        else ComponentExport.value (HydrationMetadata.componentExport h)).
Proof.
  unfold client_switch.
  destruct (String.eqb_spec key "client:component-path") as [->|_];
    [now intros [= <-]|].
  destruct (String.eqb_spec key "client:component-export") as [->|_];
    [now intros [= <-]|].
  destruct (String.eqb key "client:component-hydration"); [now intros [= <-]|].
  destruct (String.eqb key "client:display-name"); [now intros [= <-]|].
  destruct (String.eqb key "client:params").
  - destruct (params_case value) as [e|[[key' value']|]]; try discriminate.
    + intros Hdef. apply default_case_inr in Hdef.
      destruct Hdef as (name & _ & _ & ->). now split.
    + now intros [= <-].
  - intros Hdef. apply default_case_inr in Hdef.
    destruct Hdef as (name & _ & _ & ->). now split.
Qed.

Lemma client_switch_not_dispatched_value (cd : ClientDirectives)
    (h h' : HydrationMetadata.t) (key : string) (value : JsValue) :
  startsWith key "client:" = true ->
  dispatched key value = None ->
  client_switch cd h key value = inr h' ->
  HydrationMetadata.value h' = HydrationMetadata.value h.
Proof.
  unfold dispatched. intros -> Hd.
  unfold client_switch.
  destruct (String.eqb key "client:component-path") eqn:H1;
    [now intros [= <-]|].
  destruct (String.eqb key "client:component-export") eqn:H2;
    [now intros [= <-]|].
  destruct (String.eqb key "client:component-hydration") eqn:H3;
    [now intros [= <-]|].
  destruct (String.eqb key "client:display-name") eqn:H4;
    [now intros [= <-]|].
  destruct (String.eqb key "client:params") eqn:H5.
  - destruct (params_case value) as [e|[kv|]]; try discriminate.
    now intros [= <-].
  - unfold includes, reserved_client_keys in Hd. cbn [existsb] in Hd.
    rewrite H1, H2, H3, H4, H5 in Hd. discriminate.
Qed.

Lemma iteration_record (cd : ClientDirectives) (ex ex' : ExtractedProps)
    (key : string) (value : JsValue) :
  iteration cd ex key value = inr ex' ->
  HydrationMetadata.componentUrl (record_of ex')
  = (if String.eqb key "client:component-path" then value
     else HydrationMetadata.componentUrl (record_of ex))
  /\ ComponentExport.value (HydrationMetadata.componentExport (record_of ex'))
     = (if String.eqb key "client:component-export" then value
        else ComponentExport.value
               (HydrationMetadata.componentExport (record_of ex)))
  /\ (dispatched key value = None ->
      HydrationMetadata.directive (record_of ex')
      = HydrationMetadata.directive (record_of ex)
      /\ HydrationMetadata.value (record_of ex')
         = HydrationMetadata.value (record_of ex)).
Proof.
  intros Hit. destruct (startsWith key "client:") eqn:Hc.
  - rewrite (iteration_client cd ex key value Hc) in Hit.
    fold (record_of ex) in Hit. set (h := record_of ex) in *.
    destruct (client_switch cd h key value) as [e|h1] eqn:Hsw;
      [discriminate|].
    injection Hit as <-. unfold record_of. simpl.
    destruct (client_switch_inr_fields cd _ _ _ _ Hsw) as [Hu He].
    split; [exact Hu|]. split; [exact He|].
    intros Hd. split.
    + exact (client_switch_not_dispatched cd _ _ _ _ Hc Hd Hsw).
    + exact (client_switch_not_dispatched_value cd _ _ _ _ Hc Hd Hsw).
  - apply iteration_inv in Hit.
    destruct Hit as [_ [(Hc' & _)|(_ & Hh & _)]]; [congruence|].
    unfold record_of. rewrite Hh.
    destruct (String.eqb_spec key "client:component-path") as [->|_];
      [discriminate Hc|].
    destruct (String.eqb_spec key "client:component-export") as [->|_];
      [discriminate Hc|].
    now repeat split.
Qed.

Lemma entries_loop_record (cd : ClientDirectives)
    (es : list (string * JsValue)) (ex ex' : ExtractedProps) :
  entries_loop cd es ex = inr ex' ->
  NoDup (map fst es) ->
  HydrationMetadata.componentUrl (record_of ex')
  = match assoc_get String.eqb "client:component-path" es with
    | Some v => v
    | None => HydrationMetadata.componentUrl (record_of ex)
    end
  /\ ComponentExport.value (HydrationMetadata.componentExport (record_of ex'))
     = match assoc_get String.eqb "client:component-export" es with
       | Some v => v
       | None =>
           ComponentExport.value (HydrationMetadata.componentExport (record_of ex))
       end.
Proof.
  revert ex. induction es as [|[k v] es IH]; intros ex;
    cbn [entries_loop map fst assoc_get].
  - now intros [= <-].
  - destruct (iteration cd ex k v) as [e|ex1] eqn:Hit; [discriminate|].
    intros Hloop Hnd. inversion Hnd as [|? ? Hnotin Hnd']; subst.
    destruct (IH ex1 Hloop Hnd') as [-> ->].
    destruct (iteration_record cd _ _ _ _ Hit) as (Hu & He & _).
    rewrite Hu, He. split.
    + rewrite (String.eqb_sym "client:component-path" k).
      destruct (String.eqb_spec k "client:component-path") as [->|_];
        [|reflexivity].
      apply (assoc_get_None_notin String.eqb string_eqb_eq) in Hnotin.
      now rewrite Hnotin.
    + rewrite (String.eqb_sym "client:component-export" k).
      destruct (String.eqb_spec k "client:component-export") as [->|_];
        [|reflexivity].
      apply (assoc_get_None_notin String.eqb string_eqb_eq) in Hnotin.
      now rewrite Hnotin.
Qed.

(** After a successful extraction of a well-formed bag, the record's
    [componentUrl] is the value under [client:component-path] and its
    [componentExport.value] the value under [client:component-export]; each
    is the empty string when the bag has no such key, whatever directive is
    dispatched. *)
Theorem extract_component_fields (inputProps : Props) (cd : ClientDirectives)
    (ex : ExtractedProps) (h : HydrationMetadata.t) :
  well_formed inputProps ->
  extractDirectives inputProps cd = inr ex ->
  hydration ex = Some h ->
  HydrationMetadata.componentUrl h
  = match assoc_get String.eqb "client:component-path" (entries inputProps) with
    | Some v => v
    | None => VStr ""
    end
  /\ ComponentExport.value (HydrationMetadata.componentExport h)
     = match assoc_get String.eqb "client:component-export" (entries inputProps) with
       | Some v => v
       | None => VStr ""
       end.
Proof.
  intros [Hnd _] Hex Hh. apply extractDirectives_inr in Hex.
  destruct Hex as (mid & Hloop & ->).
  pose proof (symbol_loop_fields inputProps (map fst (symbols inputProps)) mid)
    as Hf. simpl in Hf. destruct Hf as (_ & Hhyd & _).
  rewrite Hhyd in Hh.
  pose proof (entries_loop_record cd _ _ _ Hloop Hnd) as Hrec.
  unfold record_of at 1 3 in Hrec. rewrite Hh in Hrec. exact Hrec.
Qed.

Lemma component_bag_well_formed : well_formed component_bag.
Proof. split; simpl; solve_NoDup. Qed.

Lemma component_bag_extracted :
  extractDirectives component_bag registry
  = inr (mkExtracted false (Some component_record)
           (bag [("count", VNum 1)]) (bag [("count", VNum 1)])).
Proof. reflexivity. Qed.

Lemma extract_component_fields_witness :
  HydrationMetadata.componentUrl component_record = VStr "/src/Counter.jsx"
  /\ ComponentExport.value (HydrationMetadata.componentExport component_record)
     = VStr "default".
Proof.
  exact (extract_component_fields component_bag registry _ component_record
           component_bag_well_formed component_bag_extracted eq_refl).
Defined.

Lemma entries_loop_not_dispatched (cd : ClientDirectives)
    (es : list (string * JsValue)) (ex ex' : ExtractedProps) :
  entries_loop cd es ex = inr ex' ->
  (forall k v, In (k, v) es -> dispatched k v = None) ->
  HydrationMetadata.directive (record_of ex')
  = HydrationMetadata.directive (record_of ex)
  /\ HydrationMetadata.value (record_of ex')
     = HydrationMetadata.value (record_of ex).
Proof.
  revert ex. induction es as [|[k v] es IH]; intros ex; simpl.
  - now intros [= <-].
  - destruct (iteration cd ex k v) as [e|ex1] eqn:Hit; [discriminate|].
    intros Hloop Hnone.
    destruct (IH ex1 Hloop) as [-> ->].
    { intros k' v' Hin. apply (Hnone k' v'). now right. }
    destruct (iteration_record cd _ _ _ _ Hit) as (_ & _ & Hkeep).
    apply Hkeep. apply (Hnone k v). now left.
Qed.

(** The last entry dispatched to the canonical case decides the directive:
    after a successful extraction the record holds the name derived from
    that entry and its argument, whatever directives came before it. *)
Theorem extract_last_directive (cd : ClientDirectives)
    (pre post : list (string * JsValue)) (syms : list (Symbol * JsValue))
    (p : Prototype) (ex : ExtractedProps)
    (key key' : string) (value arg : JsValue) :
  extractDirectives (mkProps (pre ++ (key, value) :: post) syms p) cd = inr ex ->
  dispatched key value = Some (key', arg) ->
  (forall k v, In (k, v) post -> dispatched k v = None) ->
  exists h,
    hydration ex = Some h
    /\ directive_name key' = Some (HydrationMetadata.directive h)
    /\ HydrationMetadata.value h = arg
    /\ Map_has cd (HydrationMetadata.directive h) = true.
Proof.
  intros Hex Hd Hpost. apply extractDirectives_inr in Hex.
  destruct Hex as (mid & Hloop & ->).
  pose proof (symbol_loop_fields (mkProps (pre ++ (key, value) :: post) syms p)
                (map fst syms) mid) as Hf.
  simpl in Hf. destruct Hf as (_ & Hhyd & _).
  simpl in Hloop. rewrite entries_loop_app in Hloop.
  destruct (entries_loop cd pre initial_extracted) as [e|ex0]; [discriminate|].
  simpl in Hloop.
  rewrite (iteration_dispatched cd ex0 _ _ _ _ Hd) in Hloop.
  destruct (default_case cd _ key' arg) as [e|h1] eqn:Hdef; [discriminate|].
  apply default_case_inr in Hdef. destruct Hdef as (name & Hname & Hhas & ->).
  destruct (entries_loop_not_dispatched cd _ _ _ Hloop Hpost) as [Hdir Hval].
  assert (Hsome : hydration mid <> None).
  { intros Hnone.
    apply (entries_loop_hydration_None cd _ _ _ Hloop) in Hnone.
    destruct Hnone as [Habs _]. discriminate Habs. }
  destruct (hydration mid) as [h|] eqn:Hmid; [|contradiction].
  exists h. simpl. rewrite Hhyd. split; [reflexivity|].
  unfold record_of in Hdir, Hval. rewrite Hmid in Hdir, Hval. simpl in Hdir, Hval.
  rewrite Hdir, Hval. now repeat split.
Qed.

Lemma extract_last_directive_witness :
  exists h,
    Some component_record = Some h
    /\ directive_name "client:load" = Some (HydrationMetadata.directive h)
    /\ HydrationMetadata.value h = VStr ""
    /\ Map_has registry (HydrationMetadata.directive h) = true.
Proof.
  refine (extract_last_directive registry
            [("client:idle", VStr "");
             ("client:component-path", VStr "/src/Counter.jsx")]
            [("client:component-export", VStr "default");
             ("client:component-hydration", VStr ""); ("count", VNum 1)]
            [] ObjectPrototype
            (mkExtracted false (Some component_record)
               (bag [("count", VNum 1)]) (bag [("count", VNum 1)]))
            "client:load" "client:load" (VStr "") (VStr "")
            component_bag_extracted eq_refl _).
  intros k v [H|[H|[H|[]]]]; injection H as <- <-; reflexivity.
Defined.

(** ** Extracting what was extracted *)

Lemma filter_all_true {A : Type} (f : A -> bool) (l : list A) :
  (forall x, In x l -> f x = true) -> filter f l = l.
Proof.
  induction l as [|x l IH]; intros H; simpl; [reflexivity|].
  rewrite (H x) by now left. f_equal. apply IH. intros y Hy. apply H. now right.
Qed.

Lemma NoDup_map_fst_filter {A B : Type} (f : A * B -> bool) (l : list (A * B)) :
  NoDup (map fst l) -> NoDup (map fst (filter f l)).
Proof.
  induction l as [|x l IH]; simpl; intros Hnd; [constructor|].
  inversion Hnd as [|? ? Hnotin Hnd']; subst.
  destruct (f x); simpl; [|now apply IH].
  constructor; [|now apply IH].
  intros Hin. apply Hnotin. apply in_map_iff in Hin.
  destruct Hin as (y & Hy & Hin). apply filter_In in Hin.
  rewrite <- Hy. apply in_map. tauto.
Qed.

Lemma entries_loop_no_client (cd : ClientDirectives)
    (es : list (string * JsValue)) (ex : ExtractedProps) :
  (forall kv, In kv es -> not_client kv = true) ->
  exists ex', entries_loop cd es ex = inr ex'.
Proof.
  revert ex. induction es as [|[k v] es IH]; intros ex Hes; simpl.
  - now exists ex.
  - assert (Hc : startsWith k "client:" = false).
    { specialize (Hes (k, v) (or_introl eq_refl)). unfold not_client in Hes.
      simpl in Hes. now apply negb_true_iff in Hes. }
    destruct (iteration_other cd ex k v Hc) as [ex1 ->].
    apply IH. intros kv Hin. apply Hes. now right.
Qed.

(** Extraction is idempotent on what it hands to the component: for a
    well-formed bag without an own [__proto__] key, extracting [props] again,
    under any registry, succeeds with no hydration record and gives back the
    same page flag and the same two bags. *)
Theorem extract_idempotent (inputProps : Props) (cd cd' : ClientDirectives)
    (ex : ExtractedProps) :
  well_formed inputProps ->
  ~ In PROTO (map fst (entries inputProps)) ->
  extractDirectives inputProps cd = inr ex ->
  extractDirectives (props ex) cd'
  = inr (mkExtracted (isPage ex) None (props ex)
           (propsWithoutTransitionAttributes ex)).
Proof.
  intros Hwf Hproto Hex.
  destruct (extract_contents _ _ _ Hwf Hproto Hex) as (He & Hs & Hp).
  assert (Hnc : forall kv, In kv (entries (props ex)) -> not_client kv = true).
  { intros kv. rewrite He. intros Hin. now apply filter_In in Hin. }
  assert (Hwf2 : well_formed (props ex)).
  { destruct Hwf as [Hnd Hsym]. split.
    - rewrite He. now apply NoDup_map_fst_filter.
    - now rewrite Hs. }
  assert (Hproto2 : ~ In PROTO (map fst (entries (props ex)))).
  { rewrite He. intros Hin. apply Hproto. apply in_map_iff in Hin.
    destruct Hin as (kv & Hk & Hin). apply filter_In in Hin.
    rewrite <- Hk. apply in_map. tauto. }
  destruct (entries_loop_no_client cd' _ initial_extracted Hnc) as [mid Hmid].
  set (ex2 := fold_left (symbol_iteration (props ex))
                (map fst (symbols (props ex))) mid).
  assert (Hex2 : extractDirectives (props ex) cd' = inr ex2).
  { unfold extractDirectives, Object_entries, Object_getOwnPropertySymbols.
    now rewrite Hmid. }
  rewrite Hex2. f_equal.
  destruct (extract_contents _ _ _ Hwf2 Hproto2 Hex2) as (He2 & Hs2 & Hp2).
  assert (Hprops : props ex2 = props ex).
  { rewrite (filter_all_true not_client _ Hnc) in He2.
    destruct (props ex2), (props ex). simpl in *. congruence. }
  pose proof (extract_without_transition _ _ _ Hex2) as Hwt2.
  pose proof (extract_without_transition _ _ _ Hex) as Hwt.
  pose proof (symbol_loop_fields (props ex) (map fst (symbols (props ex))) mid)
    as Hf. simpl in Hf. fold ex2 in Hf. destruct Hf as (Hpage & Hhyd & _).
  assert (Hnone : hydration ex2 = None).
  { rewrite Hhyd. apply (entries_loop_hydration_None cd' _ _ _ Hmid).
    split; [reflexivity|]. intros k v Hin. specialize (Hnc (k, v) Hin).
    unfold not_client in Hnc. simpl in Hnc. now apply negb_true_iff in Hnc. }
  assert (Hpage2 : isPage ex2 = isPage ex).
  { rewrite Hpage, (entries_loop_isPage cd' _ _ _ Hmid). simpl.
    rewrite orb_false_r, He.
    apply extractDirectives_inr in Hex. destruct Hex as (mid0 & Hloop0 & Heq0).
    pose proof (symbol_loop_fields inputProps (map fst (symbols inputProps)) mid0)
      as Hf0. simpl in Hf0. rewrite <- Heq0 in Hf0. destruct Hf0 as (-> & _).
    rewrite (entries_loop_isPage cd _ _ _ Hloop0). simpl. rewrite orb_false_r.
    clear. induction (entries inputProps) as [|[k v] l IH]; [reflexivity|].
    rewrite filter_not_client_cons. simpl.
    destruct (startsWith k "client:") eqn:Hc; simpl; rewrite IH.
    - destruct (String.eqb_spec k "server:root") as [->|_];
        [discriminate Hc|reflexivity].
    - reflexivity. }
  destruct ex2 as [pg hy pr pw]. simpl in *. subst.
  now rewrite Hwt, Hnone, Hpage2.
Qed.

Lemma extract_idempotent_witness :
  extractDirectives (props island_extracted) media_registry
  = inr (mkExtracted true None (props island_extracted)
           (propsWithoutTransitionAttributes island_extracted)).
Proof.
  refine (extract_idempotent island_bag registry media_registry island_extracted
            island_bag_well_formed _ eq_refl).
  simpl. intuition discriminate.
Defined.


(* ================================================================== *)
(** ** Further properties of [generateHydrateScript]                    *)
(* ================================================================== *)

(** The function, outcome by outcome. *)
Lemma generate_run (imports : Imports) (scriptOptions : HydrateScriptOptions.t)
    (metadata : AstroComponentMetadata.t) (log : list string) :
  let result := HydrateScriptOptions.result scriptOptions in
  let props := HydrateScriptOptions.props scriptOptions in
  let finish calls island :=
    match SSRResult.resolve result before_hydration_path with
    | inl e => (inl e, (log ++ calls ++ [before_hydration_path])%list)
    | inr bh =>
        (inr (island_finish imports props metadata bh island),
         (log ++ calls ++ [before_hydration_path])%list)
    end in
  generateHydrateScript imports scriptOptions metadata log
  = if negb (truthy (ComponentExport.value
                       (AstroComponentMetadata.componentExport metadata)))
    then (inl (AstroError
                 (NoMatchingImport (AstroComponentMetadata.displayName metadata))),
          log)
    else
      match decodeURI imports (AstroComponentMetadata.componentUrl metadata) with
      | inl e => (inl e, log)
      | inr d1 =>
          match SSRResult.resolve result d1 with
          | inl e => (inl e, (log ++ [d1])%list)
          | inr u1 =>
              let base :=
                set_island_prop
                  (island_with_attrs imports
                     (HydrateScriptOptions.astroId scriptOptions)
                     (HydrateScriptOptions.attrs scriptOptions))
                  "component-url" (VStr u1) in
              if truthy_string (SSRLoadedRenderer.clientEntrypoint
                                  (HydrateScriptOptions.renderer scriptOptions))
              then
                match SSRLoadedRenderer.clientEntrypoint
                        (HydrateScriptOptions.renderer scriptOptions) with
                | None => finish [d1] base
                | Some entry =>
                    match decodeURI imports entry with
                    | inl e => (inl e, (log ++ [d1])%list)
                    | inr d2 =>
                        match SSRResult.resolve result d2 with
                        | inl e => (inl e, (log ++ [d1; d2])%list)
                        | inr u2 =>
                            match serializeProps imports props metadata with
                            | inl e => (inl e, (log ++ [d1; d2])%list)
                            | inr serialized =>
                                finish [d1; d2]
                                  (island_with_renderer imports metadata u2
                                     serialized base)
                            end
                        end
                    end
                end
              else finish [d1] base
          end
      end.
Proof.
  intros result props finish. subst finish result props.
  unfold generateHydrateScript, truthy_string, before_hydration_path.
  destruct (negb (truthy _)); [reflexivity|].
  unfold bind, lift, await_resolve, ret.
  destruct (decodeURI imports (AstroComponentMetadata.componentUrl metadata))
    as [e|d1]; [reflexivity|].
  destruct (SSRResult.resolve _ d1) as [e|u1]; [reflexivity|].
  fold (island_with_attrs imports (HydrateScriptOptions.astroId scriptOptions)
          (HydrateScriptOptions.attrs scriptOptions)).
  destruct (SSRLoadedRenderer.clientEntrypoint _) as [entry|].
  - destruct (negb (String.eqb entry "")).
    + destruct (decodeURI imports entry) as [e|d2]; [reflexivity|].
      destruct (SSRResult.resolve _ d2) as [e|u2];
        [now rewrite <- app_assoc|].
      destruct (serializeProps imports _ metadata) as [e|serialized];
        [now rewrite <- app_assoc|].
      destruct (SSRResult.resolve _ _) as [e|bh];
        rewrite <- !app_assoc; reflexivity.
    + destruct (SSRResult.resolve _ _) as [e|bh];
        rewrite <- !app_assoc; reflexivity.
  - destruct (SSRResult.resolve _ _) as [e|bh];
      rewrite <- !app_assoc; reflexivity.
Qed.

(** A successful run, read backwards. *)
Lemma generate_success (imports : Imports)
    (scriptOptions : HydrateScriptOptions.t)
    (metadata : AstroComponentMetadata.t) (log log' : list string)
    (island : SSRElement.t) :
  generateHydrateScript imports scriptOptions metadata log = (inr island, log') ->
  exists d1 u1 bh mid,
    decodeURI imports (AstroComponentMetadata.componentUrl metadata) = inr d1
    /\ SSRResult.resolve (HydrateScriptOptions.result scriptOptions) d1 = inr u1
    /\ SSRResult.resolve (HydrateScriptOptions.result scriptOptions)
         before_hydration_path = inr bh
    /\ island = island_finish imports (HydrateScriptOptions.props scriptOptions)
                  metadata bh mid
    /\ let base :=
         set_island_prop
           (island_with_attrs imports
              (HydrateScriptOptions.astroId scriptOptions)
              (HydrateScriptOptions.attrs scriptOptions))
           "component-url" (VStr u1) in
       (truthy_string (SSRLoadedRenderer.clientEntrypoint
                         (HydrateScriptOptions.renderer scriptOptions)) = false
        /\ mid = base
        /\ log' = (log ++ [d1; before_hydration_path])%list)
       \/ (exists entry d2 u2 serialized,
             SSRLoadedRenderer.clientEntrypoint
               (HydrateScriptOptions.renderer scriptOptions) = Some entry
             /\ entry <> ""
             /\ decodeURI imports entry = inr d2
             /\ SSRResult.resolve (HydrateScriptOptions.result scriptOptions) d2
                = inr u2
             /\ serializeProps imports (HydrateScriptOptions.props scriptOptions)
                  metadata = inr serialized
             /\ mid = island_with_renderer imports metadata u2 serialized base
             /\ log' = (log ++ [d1; d2; before_hydration_path])%list).
Proof.
  rewrite generate_run. cbv zeta.
  destruct (negb (truthy _)); [discriminate|].
  destruct (decodeURI imports (AstroComponentMetadata.componentUrl metadata))
    as [e|d1] eqn:Hd1; [discriminate|].
  destruct (SSRResult.resolve _ d1) as [e|u1] eqn:Hu1; [discriminate|].
  destruct (truthy_string _) eqn:Hentry.
  - destruct (SSRLoadedRenderer.clientEntrypoint _) as [entry|] eqn:Hce;
      [|discriminate Hentry].
    destruct (decodeURI imports entry) as [e|d2] eqn:Hd2; [discriminate|].
    destruct (SSRResult.resolve _ d2) as [e|u2] eqn:Hu2; [discriminate|].
    destruct (serializeProps imports _ metadata) as [e|serialized] eqn:Hser;
      [discriminate|].
    destruct (SSRResult.resolve _ before_hydration_path) as [e|bh] eqn:Hbh;
      [discriminate|].
    intros [= <- <-]. exists d1, u1, bh. eexists.
    split; [reflexivity|]. split; [exact Hu1|]. split; [reflexivity|].
    split; [reflexivity|]. right.
    exists entry, d2, u2, serialized.
    split; [reflexivity|]. split; [|now repeat split].
    intros ->. discriminate Hentry.
  - destruct (SSRResult.resolve _ before_hydration_path) as [e|bh] eqn:Hbh;
      [discriminate|].
    intros [= <- <-]. exists d1, u1, bh. eexists.
    split; [reflexivity|]. split; [exact Hu1|]. split; [reflexivity|].
    split; [reflexivity|]. left. now repeat split.
Qed.

(** ** Reading attributes *)

Lemma has_own_island_get (island : SSRElement.t) (k : string) :
  has_own (SSRElement.props island) k
  = match island_get island k with Some _ => true | None => false end.
Proof. reflexivity. Qed.

Lemma island_get_set (island : SSRElement.t) (k k' : string) (v : JsValue) :
  k <> PROTO ->
  island_get (set_island_prop island k v) k'
  = if String.eqb k' k then Some v else island_get island k'.
Proof.
  intros Hk. unfold island_get. simpl.
  destruct (String.eqb_spec k' k) as [->|Hne].
  - now apply obj_set_get_same.
  - now apply obj_set_get_other.
Qed.

Lemma island_get_set_other (island : SSRElement.t) (k k' : string) (v : JsValue) :
  k' <> k ->
  island_get (set_island_prop island k v) k' = island_get island k'.
Proof. intros Hne. unfold island_get. simpl. now apply obj_set_get_other. Qed.

Lemma island_get_transitions (props : Props) (island : SSRElement.t)
    (k' : string) :
  island_get (island_with_transitions props island) k'
  = if String.eqb k' "data-astro-transition-persist"
       && truthy (obj_get props "data-astro-transition-persist")
    then Some (obj_get props "data-astro-transition-persist")
    else if String.eqb k' "data-astro-transition-scope"
            && truthy (obj_get props "data-astro-transition-scope")
    then Some (obj_get props "data-astro-transition-scope")
    else island_get island k'.
Proof.
  unfold island_with_transitions, transitionDirectivesToCopyOnIsland.
  cbn [fold_left].
  destruct (truthy (obj_get props "data-astro-transition-scope"));
    destruct (truthy (obj_get props "data-astro-transition-persist"));
    rewrite ?island_get_set by discriminate;
    rewrite ?andb_true_r, ?andb_false_r; reflexivity.
Qed.

Lemma length_zero_eqb (s : string) :
  Nat.eqb (String.length s) 0 = String.eqb s "".
Proof. now destruct s. Qed.

(** Every attribute of the finished island, in terms of the island before
    the [ssr] attribute. *)
Lemma island_get_finish (imports : Imports) (props : Props)
    (metadata : AstroComponentMetadata.t) (bh : string)
    (island : SSRElement.t) (k' : string) :
  island_get (island_finish imports props metadata bh island) k'
  = if String.eqb k' "data-astro-transition-persist"
       && truthy (obj_get props "data-astro-transition-persist")
    then Some (obj_get props "data-astro-transition-persist")
    else if String.eqb k' "data-astro-transition-scope"
            && truthy (obj_get props "data-astro-transition-scope")
    then Some (obj_get props "data-astro-transition-scope")
    else if String.eqb k' "opts" then Some (island_opts imports metadata)
    else if String.eqb k' "before-hydration-url" && negb (String.eqb bh "")
    then Some (VStr bh)
    else if String.eqb k' "client"
    then Some (VStr (AstroComponentMetadata.hydrate metadata))
    else if String.eqb k' "ssr" then Some (VStr "")
    else island_get island k'.
Proof.
  unfold island_finish. rewrite island_get_transitions, length_zero_eqb.
  destruct (String.eqb bh ""); cbn [negb];
    rewrite ?island_get_set by discriminate;
    rewrite ?andb_true_r, ?andb_false_r; reflexivity.
Qed.

Lemma island_get_renderer (imports : Imports)
    (metadata : AstroComponentMetadata.t) (url serialized : string)
    (island : SSRElement.t) (k' : string) :
  island_get (island_with_renderer imports metadata url serialized island) k'
  = if String.eqb k' "props" then Some (VStr (escapeHTML imports serialized))
    else if String.eqb k' "renderer-url" then Some (VStr url)
    else if String.eqb k' "component-export"
    then Some (ComponentExport.value
                 (AstroComponentMetadata.componentExport metadata))
    else island_get island k'.
Proof.
  unfold island_with_renderer. now rewrite !island_get_set by discriminate.
Qed.

(** The extra attributes: a key they do not name is left alone, and a key
    they name once holds its escaped value. *)
Lemma island_get_attrs_other (escape : string -> string)
    (attrs : list (string * string)) (island : SSRElement.t) (k' : string) :
  ~ In k' (map fst attrs) ->
  island_get
    (fold_left
       (fun island kv => set_island_prop island (fst kv) (VStr (escape (snd kv))))
       attrs island) k'
  = island_get island k'.
Proof.
  revert island. induction attrs as [|[k v] attrs IH]; intros island Hnotin;
    simpl; [reflexivity|].
  rewrite IH by (intros Hin; apply Hnotin; now right).
  apply island_get_set_other. intros ->. apply Hnotin. now left.
Qed.

Lemma island_get_attrs_named (escape : string -> string)
    (attrs : list (string * string)) (island : SSRElement.t)
    (k v : string) :
  NoDup (map fst attrs) ->
  In (k, v) attrs ->
  k <> PROTO ->
  island_get
    (fold_left
       (fun island kv => set_island_prop island (fst kv) (VStr (escape (snd kv))))
       attrs island) k
  = Some (VStr (escape v)).
Proof.
  intros Hnd Hin Hk. revert island Hnd Hin.
  induction attrs as [|[k0 v0] attrs IH]; intros island Hnd Hin; [destruct Hin|].
  inversion Hnd as [|? ? Hnotin Hnd']; subst. simpl.
  destruct Hin as [[= -> ->]|Hin].
  - rewrite island_get_attrs_other by exact Hnotin.
    rewrite island_get_set by exact Hk. now rewrite String.eqb_refl.
  - now apply IH.
Qed.

Lemma attrs_has_In (attrs : list (string * string)) (k : string) :
  existsb (fun kv => String.eqb (fst kv) k) attrs = false <->
  ~ In k (map fst attrs).
Proof.
  induction attrs as [|[k0 v0] attrs IH]; simpl.
  - split; [intros _ []|reflexivity].
  - rewrite orb_false_iff, IH. split.
    + intros [Hne Hnotin] [->|Hin]; [|contradiction].
      rewrite String.eqb_refl in Hne. discriminate.
    + intros H. split.
      * apply String.eqb_neq. intros ->. apply H. now left.
      * intros Hin. apply H. now right.
Qed.

Lemma island_get_with_attrs_other (imports : Imports) (astroId : string)
    (attrs : option (list (string * string))) (k' : string) :
  attrs_has attrs k' = false ->
  island_get (island_with_attrs imports astroId attrs) k'
  = if String.eqb k' "uid" then Some (VStr astroId) else None.
Proof.
  intros Hhas. unfold island_with_attrs. destruct attrs as [attrs|].
  - rewrite island_get_attrs_other by now apply attrs_has_In.
    unfold island_get. simpl. now destruct (String.eqb k' "uid").
  - unfold island_get. simpl. now destruct (String.eqb k' "uid").
Qed.

(** ** What the island holds *)

Lemma children_with_attrs (imports : Imports) (astroId : string)
    (attrs : option (list (string * string))) :
  SSRElement.children (island_with_attrs imports astroId attrs) = "".
Proof.
  unfold island_with_attrs. destruct attrs as [attrs|]; [|reflexivity].
  generalize (SSRElement.mk "" (mkProps [("uid", VStr astroId)] [] ObjectPrototype))
             (eq_refl : SSRElement.children
                          (SSRElement.mk ""
                             (mkProps [("uid", VStr astroId)] [] ObjectPrototype))
                        = "").
  induction attrs as [|[k v] attrs IH]; intros island Hc; simpl; [exact Hc|].
  apply IH. exact Hc.
Qed.

Lemma children_finish (imports : Imports) (props : Props)
    (metadata : AstroComponentMetadata.t) (bh : string) (island : SSRElement.t) :
  SSRElement.children (island_finish imports props metadata bh island)
  = SSRElement.children island.
Proof.
  unfold island_finish, island_with_transitions,
    transitionDirectivesToCopyOnIsland. cbn [fold_left].
  destruct (truthy (obj_get props "data-astro-transition-scope"));
    destruct (truthy (obj_get props "data-astro-transition-persist"));
    destruct (negb (Nat.eqb (String.length bh) 0)); reflexivity.
Qed.

Ltac island_eqb := cbn [String.eqb Ascii.eqb Bool.eqb andb negb].

(** In every island that is returned, [ssr] is empty, [client] is the
    hydration mode, [opts] is the escaped serialisation of the display name
    and the hydration arguments, and [component-url] is the resolved,
    decoded component URL: the extra attributes cannot replace them.  [uid]
    is the instance identifier unless the extra attributes name [uid]. *)
Theorem generate_fixed_attributes (imports : Imports)
    (scriptOptions : HydrateScriptOptions.t)
    (metadata : AstroComponentMetadata.t) (log log' : list string)
    (island : SSRElement.t) :
  generateHydrateScript imports scriptOptions metadata log = (inr island, log') ->
  island_get island "ssr" = Some (VStr "")
  /\ island_get island "client"
     = Some (VStr (AstroComponentMetadata.hydrate metadata))
  /\ island_get island "opts" = Some (island_opts imports metadata)
  /\ (exists decoded url,
        decodeURI imports (AstroComponentMetadata.componentUrl metadata)
        = inr decoded
        /\ SSRResult.resolve (HydrateScriptOptions.result scriptOptions) decoded
           = inr url
        /\ island_get island "component-url" = Some (VStr url))
  /\ (attrs_has (HydrateScriptOptions.attrs scriptOptions) "uid" = false ->
      island_get island "uid"
      = Some (VStr (HydrateScriptOptions.astroId scriptOptions)))
  /\ SSRElement.children island = "".
Proof.
  intros Hrun. apply generate_success in Hrun.
  destruct Hrun as (d1 & u1 & bh & mid & Hd1 & Hu1 & Hbh & -> & Hmid).
  cbv zeta in Hmid.
  split; [|split; [|split; [|split; [|split]]]].
  - rewrite island_get_finish. island_eqb. reflexivity.
  - rewrite island_get_finish. island_eqb. reflexivity.
  - rewrite island_get_finish. island_eqb. reflexivity.
  - exists d1, u1. split; [exact Hd1|]. split; [exact Hu1|].
    rewrite island_get_finish. island_eqb.
    destruct Hmid as [(_ & -> & _)|(entry & d2 & u2 & ser & _ & _ & _ & _ & _ & -> & _)].
    + rewrite island_get_set by discriminate. reflexivity.
    + rewrite island_get_renderer. island_eqb.
      rewrite island_get_set by discriminate. reflexivity.
  - intros Huid. rewrite island_get_finish. island_eqb.
    destruct Hmid as [(_ & -> & _)|(entry & d2 & u2 & ser & _ & _ & _ & _ & _ & -> & _)].
    + rewrite island_get_set by discriminate. island_eqb.
      now rewrite island_get_with_attrs_other.
    + rewrite island_get_renderer. island_eqb.
      rewrite island_get_set by discriminate. island_eqb.
      now rewrite island_get_with_attrs_other.
  - rewrite children_finish.
    destruct Hmid as [(_ & -> & _)|(entry & d2 & u2 & ser & _ & _ & _ & _ & _ & -> & _)];
      apply children_with_attrs.
Qed.

Lemma generate_fixed_attributes_witness :
  exists island log',
    generateHydrateScript sample_imports client_options
      (sample_metadata "default") [] = (inr island, log')
    /\ island_get island "client" = Some (VStr "load")
    /\ island_get island "ssr" = Some (VStr "").
Proof.
  destruct (generateHydrateScript sample_imports client_options
              (sample_metadata "default") []) as [[e|island] log'] eqn:Hrun;
    [vm_compute in Hrun; discriminate Hrun|].
  exists island, log'. split; [reflexivity|].
  destruct (generate_fixed_attributes _ _ _ _ _ _ Hrun) as (Hssr & Hclient & _).
  split; [exact Hclient|exact Hssr].
Defined.

(** The [before-hydration-url] attribute of a returned island is the
    resolved bootstrap URL when that URL is not empty; when it is empty the
    builder sets no such attribute, so the island has one only if the extra
    attributes name it. *)
Theorem generate_before_hydration_url (imports : Imports)
    (scriptOptions : HydrateScriptOptions.t)
    (metadata : AstroComponentMetadata.t) (log log' : list string)
    (island : SSRElement.t) :
  generateHydrateScript imports scriptOptions metadata log = (inr island, log') ->
  exists bh,
    SSRResult.resolve (HydrateScriptOptions.result scriptOptions)
      before_hydration_path = inr bh
    /\ (bh <> "" -> island_get island "before-hydration-url" = Some (VStr bh))
    /\ (bh = "" ->
        attrs_has (HydrateScriptOptions.attrs scriptOptions)
          "before-hydration-url" = false ->
        island_get island "before-hydration-url" = None).
Proof.
  intros Hrun. apply generate_success in Hrun.
  destruct Hrun as (d1 & u1 & bh & mid & Hd1 & Hu1 & Hbh & -> & Hmid).
  cbv zeta in Hmid. exists bh. split; [exact Hbh|]. split.
  - intros Hne. rewrite island_get_finish. island_eqb.
    apply String.eqb_neq in Hne. now rewrite Hne.
  - intros -> Hattrs. rewrite island_get_finish. island_eqb.
    destruct Hmid as [(_ & -> & _)|(entry & d2 & u2 & ser & _ & _ & _ & _ & _ & -> & _)].
    + rewrite island_get_set by discriminate. island_eqb.
      now rewrite island_get_with_attrs_other.
    + rewrite island_get_renderer. island_eqb.
      rewrite island_get_set by discriminate. island_eqb.
      now rewrite island_get_with_attrs_other.
Qed.

Lemma generate_before_hydration_url_witness :
  (exists island log',
     generateHydrateScript sample_imports quiet_options
       (sample_metadata "default") [] = (inr island, log')
     /\ island_get island "before-hydration-url" = None)
  /\ (exists island log',
        generateHydrateScript sample_imports client_options
          (sample_metadata "default") [] = (inr island, log')
        /\ island_get island "before-hydration-url"
           = Some (VStr "/resolved/astro:scripts/before-hydration.js")).
Proof.
  split.
  - destruct (generateHydrateScript sample_imports quiet_options
                (sample_metadata "default") []) as [[e|island] log'] eqn:Hrun;
      [vm_compute in Hrun; discriminate Hrun|].
    exists island, log'. split; [reflexivity|].
    destruct (generate_before_hydration_url _ _ _ _ _ _ Hrun)
      as (bh & Hbh & _ & Hempty).
    injection Hbh as <-. now apply Hempty.
  - destruct (generateHydrateScript sample_imports client_options
                (sample_metadata "default") []) as [[e|island] log'] eqn:Hrun;
      [vm_compute in Hrun; discriminate Hrun|].
    exists island, log'. split; [reflexivity|].
    destruct (generate_before_hydration_url _ _ _ _ _ _ Hrun)
      as (bh & Hbh & Hfull & _).
    injection Hbh as <-. now apply Hfull.
Defined.

(** A transition key that is truthy in the props is copied onto the
    returned island with its value as it is, not escaped; one that is not
    truthy is not copied, so the island has it only if the extra attributes
    name it. *)
Theorem generate_transition_attributes (imports : Imports)
    (scriptOptions : HydrateScriptOptions.t)
    (metadata : AstroComponentMetadata.t) (log log' : list string)
    (island : SSRElement.t) (name : string) :
  generateHydrateScript imports scriptOptions metadata log = (inr island, log') ->
  In name transitionDirectivesToCopyOnIsland ->
  let v := obj_get (HydrateScriptOptions.props scriptOptions) name in
  (truthy v = true -> island_get island name = Some v)
  /\ (truthy v = false ->
      attrs_has (HydrateScriptOptions.attrs scriptOptions) name = false ->
      island_get island name = None).
Proof.
  intros Hrun Hin v. subst v. apply generate_success in Hrun.
  destruct Hrun as (d1 & u1 & bh & mid & Hd1 & Hu1 & Hbh & -> & Hmid).
  cbv zeta in Hmid.
  assert (Hmidget : forall k, attrs_has (HydrateScriptOptions.attrs scriptOptions) k
                              = false ->
                    In k transitionDirectivesToCopyOnIsland ->
                    island_get mid k = None).
  { intros k Hattrs [<-|[<-|[]]];
      destruct Hmid as [(_ & -> & _)|(entry & d2 & u2 & ser & _ & _ & _ & _ & _ & -> & _)];
      rewrite ?island_get_renderer; island_eqb;
      rewrite island_get_set by discriminate; island_eqb;
      now rewrite island_get_with_attrs_other. }
  split.
  - intros Ht. rewrite island_get_finish.
    destruct Hin as [<-|[<-|[]]]; island_eqb; rewrite Ht; [|reflexivity].
    now destruct (truthy (obj_get (HydrateScriptOptions.props scriptOptions)
                            "data-astro-transition-persist")).
  - intros Ht Hattrs. rewrite island_get_finish.
    pose proof (Hmidget name Hattrs Hin) as Hnone.
    destruct Hin as [<-|[<-|[]]]; island_eqb; rewrite Ht; island_eqb;
      rewrite ?andb_false_r; exact Hnone.
Qed.

Lemma generate_transition_attributes_witness :
  exists island log',
    generateHydrateScript sample_imports client_options
      (sample_metadata "default") [] = (inr island, log')
    /\ island_get island "data-astro-transition-scope" = Some (VStr "astro-abc")
    /\ island_get island "data-astro-transition-persist" = None.
Proof.
  destruct (generateHydrateScript sample_imports client_options
              (sample_metadata "default") []) as [[e|island] log'] eqn:Hrun;
    [vm_compute in Hrun; discriminate Hrun|].
  exists island, log'. split; [reflexivity|]. split.
  - refine (proj1 (generate_transition_attributes _ _ _ _ _ _
                     "data-astro-transition-scope" Hrun _) eq_refl).
    simpl. tauto.
  - refine (proj2 (generate_transition_attributes _ _ _ _ _ _
                     "data-astro-transition-persist" Hrun _) eq_refl eq_refl).
    simpl. tauto.
Defined.

Lemma vocabulary_eqb (k : string) :
  includes island_vocabulary k = false ->
  forall name, In name island_vocabulary -> String.eqb k name = false.
Proof.
  unfold includes. intros H name Hin.
  destruct (String.eqb k name) eqn:E; [|reflexivity].
  rewrite <- H. symmetry. apply existsb_exists. now exists name.
Qed.

(** An extra attribute whose name is outside the builder's own vocabulary
    (and is not [__proto__]) is on the returned island with its value
    escaped; this includes [uid], which the extra attributes may replace. *)
Theorem generate_extra_attributes (imports : Imports)
    (scriptOptions : HydrateScriptOptions.t)
    (metadata : AstroComponentMetadata.t) (log log' : list string)
    (island : SSRElement.t) (attrs : list (string * string)) (k v : string) :
  generateHydrateScript imports scriptOptions metadata log = (inr island, log') ->
  HydrateScriptOptions.attrs scriptOptions = Some attrs ->
  NoDup (map fst attrs) ->
  In (k, v) attrs ->
  includes island_vocabulary k = false ->
  k <> PROTO ->
  island_get island k = Some (VStr (escapeHTML imports v)).
Proof.
  intros Hrun Hattrs Hnd Hin Hvoc Hk. apply generate_success in Hrun.
  destruct Hrun as (d1 & u1 & bh & mid & Hd1 & Hu1 & Hbh & -> & Hmid).
  cbv zeta in Hmid. rewrite Hattrs in Hmid.
  pose proof (vocabulary_eqb k Hvoc) as Hneq.
  rewrite island_get_finish.
  rewrite (Hneq "data-astro-transition-persist"),
          (Hneq "data-astro-transition-scope"), (Hneq "opts"),
          (Hneq "before-hydration-url"), (Hneq "client"), (Hneq "ssr")
    by (simpl; tauto).
  cbn [andb].
  assert (Hbase : island_get
                    (set_island_prop
                       (island_with_attrs imports
                          (HydrateScriptOptions.astroId scriptOptions)
                          (Some attrs)) "component-url" (VStr u1)) k
                  = Some (VStr (escapeHTML imports v))).
  { rewrite island_get_set by discriminate.
    rewrite (Hneq "component-url") by (simpl; tauto).
    unfold island_with_attrs. now apply island_get_attrs_named. }
  destruct Hmid as [(_ & -> & _)|(entry & d2 & u2 & ser & _ & _ & _ & _ & _ & -> & _)].
  - exact Hbase.
  - rewrite island_get_renderer.
    rewrite (Hneq "props"), (Hneq "renderer-url"), (Hneq "component-export")
      by (simpl; tauto).
    exact Hbase.
Qed.

Lemma generate_extra_attributes_witness :
  exists island log',
    generateHydrateScript sample_imports client_options
      (sample_metadata "default") [] = (inr island, log')
    /\ island_get island "data-render-id" = Some (VStr "r1")
    /\ island_get island "uid" = Some (VStr "custom").
Proof.
  destruct (generateHydrateScript sample_imports client_options
              (sample_metadata "default") []) as [[e|island] log'] eqn:Hrun;
    [vm_compute in Hrun; discriminate Hrun|].
  exists island, log'. split; [reflexivity|].
  assert (Hnd : NoDup (map fst [("data-render-id", "r1"); ("uid", "custom")]))
    by (simpl; solve_NoDup).
  split.
  - refine (generate_extra_attributes _ _ _ _ _ _ _ "data-render-id" "r1"
              Hrun eq_refl Hnd _ eq_refl _); [simpl; tauto|discriminate].
  - refine (generate_extra_attributes _ _ _ _ _ _ _ "uid" "custom"
              Hrun eq_refl Hnd _ eq_refl _); [simpl; tauto|discriminate].
Defined.

(** With a renderer that has a client entry point, and every collaborator
    succeeding, the call resolves three paths in order (the decoded
    component URL, the decoded entry point, the bootstrap script) and the
    island carries [component-export], the resolved [renderer-url] and the
    escaped serialised [props], whatever the extra attributes say. *)
Theorem generate_with_client_renderer (imports : Imports)
    (scriptOptions : HydrateScriptOptions.t)
    (metadata : AstroComponentMetadata.t) (log : list string)
    (entry d1 u1 d2 u2 serialized bh : string) :
  truthy (ComponentExport.value
            (AstroComponentMetadata.componentExport metadata)) = true ->
  SSRLoadedRenderer.clientEntrypoint
    (HydrateScriptOptions.renderer scriptOptions) = Some entry ->
  entry <> "" ->
  decodeURI imports (AstroComponentMetadata.componentUrl metadata) = inr d1 ->
  SSRResult.resolve (HydrateScriptOptions.result scriptOptions) d1 = inr u1 ->
  decodeURI imports entry = inr d2 ->
  SSRResult.resolve (HydrateScriptOptions.result scriptOptions) d2 = inr u2 ->
  serializeProps imports (HydrateScriptOptions.props scriptOptions) metadata
  = inr serialized ->
  SSRResult.resolve (HydrateScriptOptions.result scriptOptions)
    before_hydration_path = inr bh ->
  exists island,
    generateHydrateScript imports scriptOptions metadata log
    = (inr island, (log ++ [d1; d2; before_hydration_path])%list)
    /\ island_get island "component-export"
       = Some (ComponentExport.value
                 (AstroComponentMetadata.componentExport metadata))
    /\ island_get island "renderer-url" = Some (VStr u2)
    /\ island_get island "props" = Some (VStr (escapeHTML imports serialized))
    /\ island_get island "component-url" = Some (VStr u1).
Proof.
  intros Hexport Hentry Hne Hd1 Hu1 Hd2 Hu2 Hser Hbh.
  rewrite generate_run. cbv zeta.
  rewrite Hexport, Hd1, Hu1, Hentry. cbn [negb truthy_string].
  apply String.eqb_neq in Hne. rewrite Hne. cbn [negb].
  rewrite Hd2, Hu2, Hser, Hbh.
  eexists. split; [reflexivity|].
  repeat split; rewrite island_get_finish; island_eqb;
    rewrite island_get_renderer; island_eqb; try reflexivity.
  now rewrite island_get_set by discriminate.
Qed.

Lemma generate_with_client_renderer_witness :
  exists island,
    generateHydrateScript sample_imports client_options
      (sample_metadata "default") []
    = (inr island,
       ["/src/Counter.jsx"; "@astrojs/react/client.js"; before_hydration_path])
    /\ island_get island "renderer-url"
       = Some (VStr "/resolved/@astrojs/react/client.js").
Proof.
  destruct (generate_with_client_renderer sample_imports client_options
              (sample_metadata "default") []
              "@astrojs/react/client.js" "/src/Counter.jsx"
              "/resolved//src/Counter.jsx" "@astrojs/react/client.js"
              "/resolved/@astrojs/react/client.js" "{}"
              "/resolved/astro:scripts/before-hydration.js"
              eq_refl eq_refl ltac:(discriminate) eq_refl eq_refl eq_refl
              eq_refl eq_refl eq_refl)
    as (island & Hrun & _ & Hurl & _).
  exists island. split; [exact Hrun|exact Hurl].
Defined.

(** A failure of a collaborator is the failure of the call, and the log
    shows how far it got: a [decodeURI] that throws on the component URL
    stops the call before any resolution, a rejected resolution of the
    component URL stops it after that one request, and no run makes more
    than three requests. *)
Theorem generate_failure_propagates (imports : Imports)
    (scriptOptions : HydrateScriptOptions.t)
    (metadata : AstroComponentMetadata.t) (log : list string) :
  truthy (ComponentExport.value
            (AstroComponentMetadata.componentExport metadata)) = true ->
  (forall e,
     decodeURI imports (AstroComponentMetadata.componentUrl metadata) = inl e ->
     generateHydrateScript imports scriptOptions metadata log = (inl e, log))
  /\ (forall d e,
        decodeURI imports (AstroComponentMetadata.componentUrl metadata) = inr d ->
        SSRResult.resolve (HydrateScriptOptions.result scriptOptions) d = inl e ->
        generateHydrateScript imports scriptOptions metadata log
        = (inl e, (log ++ [d])%list))
  /\ (forall d u e,
        decodeURI imports (AstroComponentMetadata.componentUrl metadata) = inr d ->
        SSRResult.resolve (HydrateScriptOptions.result scriptOptions) d = inr u ->
        truthy_string (SSRLoadedRenderer.clientEntrypoint
                         (HydrateScriptOptions.renderer scriptOptions)) = false ->
        SSRResult.resolve (HydrateScriptOptions.result scriptOptions)
          before_hydration_path = inl e ->
        generateHydrateScript imports scriptOptions metadata log
        = (inl e, (log ++ [d; before_hydration_path])%list))
  /\ exists calls,
       snd (generateHydrateScript imports scriptOptions metadata log)
       = (log ++ calls)%list
       /\ length calls <= 3.
Proof.
  intros Hexport. rewrite generate_run. cbv zeta. rewrite Hexport. cbn [negb].
  split; [|split; [|split]].
  - now intros e ->.
  - now intros d e -> ->.
  - intros d u e -> -> -> ->. reflexivity.
  - destruct (decodeURI imports _) as [e|d1].
    { exists []. simpl. now rewrite app_nil_r; split; [|lia]. }
    destruct (SSRResult.resolve _ d1) as [e|u1].
    { exists [d1]. simpl. split; [reflexivity|lia]. }
    destruct (truthy_string _).
    + destruct (SSRLoadedRenderer.clientEntrypoint _) as [entry|].
      * destruct (decodeURI imports entry) as [e|d2].
        { exists [d1]. simpl. split; [reflexivity|lia]. }
        destruct (SSRResult.resolve _ d2) as [e|u2].
        { exists [d1; d2]. simpl. split; [reflexivity|lia]. }
        destruct (serializeProps imports _ metadata) as [e|ser].
        { exists [d1; d2]. simpl. split; [reflexivity|lia]. }
        destruct (SSRResult.resolve _ before_hydration_path);
          exists [d1; d2; before_hydration_path]; simpl; split;
            (reflexivity || lia).
      * destruct (SSRResult.resolve _ before_hydration_path);
          exists [d1; before_hydration_path]; simpl; split;
            (reflexivity || lia).
    + destruct (SSRResult.resolve _ before_hydration_path);
        exists [d1; before_hydration_path]; simpl; split;
          (reflexivity || lia).
Qed.

Lemma generate_failure_propagates_witness :
  generateHydrateScript sample_imports failing_options
    (sample_metadata "default") []
  = (inl (Error_ (DirectiveNotString "/src/Counter.jsx")), ["/src/Counter.jsx"]).
Proof.
  destruct (generate_failure_propagates sample_imports failing_options
              (sample_metadata "default") [] eq_refl) as (_ & Hresolve & _).
  exact (Hresolve "/src/Counter.jsx"
           (Error_ (DirectiveNotString "/src/Counter.jsx")) eq_refl eq_refl).
Defined.

(** A returned island was built with two resolutions, of the decoded
    component URL and of the bootstrap script, when the renderer has no
    client entry point, and with a third one between them, of the decoded
    entry point, when it has one. *)
Theorem generate_resolve_calls (imports : Imports)
    (scriptOptions : HydrateScriptOptions.t)
    (metadata : AstroComponentMetadata.t) (log log' : list string)
    (island : SSRElement.t) :
  generateHydrateScript imports scriptOptions metadata log = (inr island, log') ->
  exists d1,
    decodeURI imports (AstroComponentMetadata.componentUrl metadata) = inr d1
    /\ match SSRLoadedRenderer.clientEntrypoint
               (HydrateScriptOptions.renderer scriptOptions) with
       | Some (String c entry) =>
           exists d2,
             decodeURI imports (String c entry) = inr d2
             /\ log' = (log ++ [d1; d2; before_hydration_path])%list
       | _ => log' = (log ++ [d1; before_hydration_path])%list
       end.
Proof.
  intros Hrun. apply generate_success in Hrun.
  destruct Hrun as (d1 & u1 & bh & mid & Hd1 & Hu1 & Hbh & _ & Hmid).
  cbv zeta in Hmid. exists d1. split; [exact Hd1|].
  destruct Hmid as [(Hentry & _ & ->)|
                    (entry & d2 & u2 & ser & -> & Hne & Hd2 & _ & _ & _ & ->)].
  - destruct (SSRLoadedRenderer.clientEntrypoint _) as [[|c entry]|];
      [reflexivity|discriminate Hentry|reflexivity].
  - destruct entry as [|c entry]; [contradiction|]. now exists d2.
Qed.

Lemma generate_resolve_calls_witness :
  exists island log',
    generateHydrateScript sample_imports quiet_options
      (sample_metadata "default") [] = (inr island, log')
    /\ log' = ["/src/Counter.jsx"; before_hydration_path].
Proof.
  destruct (generateHydrateScript sample_imports quiet_options
              (sample_metadata "default") []) as [[e|island] log'] eqn:Hrun;
    [vm_compute in Hrun; discriminate Hrun|].
  exists island, log'. split; [reflexivity|].
  destruct (generate_resolve_calls _ _ _ _ _ _ Hrun) as (d1 & Hd1 & Hlog).
  injection Hd1 as <-. exact Hlog.
Defined.

(** Without extra attributes the attributes of a returned island come in a
    fixed order: [uid], [component-url], then [component-export],
    [renderer-url] and [props] if the renderer has a client entry point,
    then [ssr], [client], [before-hydration-url] if the bootstrap URL is not
    empty, [opts], and last the transition keys that are truthy in the
    props. *)
Theorem generate_attribute_order (imports : Imports)
    (scriptOptions : HydrateScriptOptions.t)
    (metadata : AstroComponentMetadata.t) (log log' : list string)
    (island : SSRElement.t) :
  generateHydrateScript imports scriptOptions metadata log = (inr island, log') ->
  HydrateScriptOptions.attrs scriptOptions = None ->
  exists bh,
    SSRResult.resolve (HydrateScriptOptions.result scriptOptions)
      before_hydration_path = inr bh
    /\ map fst (entries (SSRElement.props island))
       = (["uid"; "component-url"]
          ++ (if truthy_string (SSRLoadedRenderer.clientEntrypoint
                                  (HydrateScriptOptions.renderer scriptOptions))
              then ["component-export"; "renderer-url"; "props"] else [])
          ++ ["ssr"; "client"]
          ++ (if String.eqb bh "" then [] else ["before-hydration-url"])
          ++ ["opts"]
          ++ filter (fun name =>
                       truthy (obj_get (HydrateScriptOptions.props scriptOptions)
                                 name))
               transitionDirectivesToCopyOnIsland)%list.
Proof.
  intros Hrun Hattrs. apply generate_success in Hrun.
  destruct Hrun as (d1 & u1 & bh & mid & Hd1 & Hu1 & Hbh & -> & Hmid).
  cbv zeta in Hmid. rewrite Hattrs in Hmid.
  exists bh. split; [exact Hbh|].
  unfold island_finish, island_with_transitions,
    transitionDirectivesToCopyOnIsland.
  rewrite length_zero_eqb. cbn [fold_left filter].
  destruct Hmid as [(-> & -> & _)|
                    (entry & d2 & u2 & ser & -> & Hne & _ & _ & _ & -> & _)].
  - destruct (String.eqb bh "");
      destruct (truthy (obj_get _ "data-astro-transition-scope"));
      destruct (truthy (obj_get _ "data-astro-transition-persist"));
      reflexivity.
  - apply String.eqb_neq in Hne. cbn [truthy_string]. rewrite Hne.
    destruct (String.eqb bh "");
      destruct (truthy (obj_get _ "data-astro-transition-scope"));
      destruct (truthy (obj_get _ "data-astro-transition-persist"));
      reflexivity.
Qed.

Lemma generate_attribute_order_witness :
  exists island log',
    generateHydrateScript sample_imports quiet_options
      (sample_metadata "default") [] = (inr island, log')
    /\ map fst (entries (SSRElement.props island))
       = ["uid"; "component-url"; "ssr"; "client"; "opts"].
Proof.
  destruct (generateHydrateScript sample_imports quiet_options
              (sample_metadata "default") []) as [[e|island] log'] eqn:Hrun;
    [vm_compute in Hrun; discriminate Hrun|].
  exists island, log'. split; [reflexivity|].
  destruct (generate_attribute_order _ _ _ _ _ _ Hrun eq_refl)
    as (bh & Hbh & Horder).
  injection Hbh as <-. exact Horder.
Defined.
